(** * packed_func.h: the type-erased calling convention of the TVM runtime

    A shallow embedding of [include/tvm/runtime/packed_func.h]: the tagged
    value ([TVMValue] plus type code), the borrowed argument view
    ([TVMArgValue]), the argument list ([TVMArgs]), the owning return slot
    ([TVMRetValue]) and the textual form of type descriptors
    ([TVMType2String], [String2TVMType]).

    Conventions.
    - A C++ integer of width w is a [Z]; conversions between widths are
      written out ([wrap_uint], [wrap_int]).
    - A function that can hit a [CHECK] or [LOG(FATAL)] returns an [outcome]:
      [Ok] with its result, [Fatal] with the failure, or [Undefined] where
      C++ gives the program no meaning (releasing a box twice, reading
      through a dangling pointer, reading an inactive union member).
    - Methods that touch heap boxes take the heap and the object and return
      the new heap and object. *)

From Stdlib Require Import ZArith Lia List String Ascii.
From Stdlib Require Import DecimalString DecimalN DecimalPos DecimalFacts.
From stdpp Require Import base option list gmap.

Local Open Scope string_scope.
Local Open Scope Z_scope.

(* ===================================================================== *)
(** ** Type codes and failures *)
(* ===================================================================== *)

(** Modelled from the spec: the enumeration [TVMTypeCode] is declared in
    [c_runtime_api.h], which is not part of the sources at hand.  The spec
    gives the closed set of tags; the header under study names them [kInt],
    [kUInt], ...  Only the fact that the enumerators are pairwise distinct
    is used. *)
Inductive TypeCode : Set :=
  | kInt | kUInt | kFloat | kHandle
  | kNull | kArrayHandle | kTVMType | kNodeHandle
  | kFuncHandle | kModuleHandle | kStr | kBytes.

#[global] Instance TypeCode_eq_dec : EqDecision TypeCode.
Proof. solve_decision. Defined.

(** What a failed [CHECK] or a [LOG(FATAL)] reports.  The text is the one
    the source streams into the log message. *)
Inductive Failure : Type :=
  | CheckFailed (msg : string)
  | UnknownTypeCode (c : TypeCode)      (* "unknown type_code=" << int *)
  | UnknownType (s : string).           (* "unknown type " << s *)

(** Behaviour the C++ abstract machine leaves undefined. *)
Inductive Undef : Set :=
  | InactiveMember          (* read of a union member that was not stored *)
  | BadPointer (p : Z)      (* access through a pointer to no live object *)
  | BadDelete (p : Z)       (* delete of a pointer to no live box *)
  | UnmappedRead (a : Z).   (* array read outside every mapped array *)

Inductive outcome (A : Type) : Type :=
  | Ok (a : A)
  | Fatal (f : Failure)
  | Undefined (u : Undef).
Arguments Ok {A} a.
Arguments Fatal {A} f.
Arguments Undefined {A} u.

#[global] Instance outcome_ret : MRet outcome := fun A a => Ok a.

#[global] Instance outcome_bind : MBind outcome := fun A B k m =>
  match m with
  | Ok a => k a
  | Fatal f => Fatal f
  | Undefined u => Undefined u
  end.

Definition is_fatal {A} (m : outcome A) : Prop :=
  match m with Fatal _ => True | _ => False end.

Definition is_ok {A} (m : outcome A) : Prop :=
  match m with Ok _ => True | _ => False end.

(* ===================================================================== *)
(** ** Fixed-width integers *)
(* ===================================================================== *)

Definition wrap_uint (w : Z) (z : Z) : Z := z mod 2 ^ w.

Definition wrap_int (w : Z) (z : Z) : Z :=
  (z + 2 ^ (w - 1)) mod 2 ^ w - 2 ^ (w - 1).

Definition INT_MAX : Z := 2147483647.
Definition INT_MIN : Z := -2147483648.
Definition INT64_MAX : Z := 9223372036854775807.
Definition INT64_MIN : Z := -9223372036854775808.

Definition in_int64 (z : Z) : Prop := INT64_MIN <= z <= INT64_MAX.

(** [os << static_cast<int>(x)]: decimal text of an [int]. *)
Definition show_int (z : Z) : string :=
  if z <? 0
  then String "-" (NilEmpty.string_of_uint (N.to_uint (Z.to_N (- z))))
  else NilEmpty.string_of_uint (N.to_uint (Z.to_N z)).

(* ===================================================================== *)
(** ** Type descriptors and their text *)
(* ===================================================================== *)

(** [TVMType]: [uint8_t code; uint8_t bits; uint16_t lanes]. *)
Record TVMType : Set := mkTVMType {
  code : TypeCode;
  bits : Z;
  lanes : Z
}.

#[global] Instance TVMType_eq_dec : EqDecision TVMType.
Proof. solve_decision. Defined.

(** [TypeCode2Str]: the switch has no case for [kUInt], which therefore
    reaches [default]. *)
Definition TypeCode2Str (type_code : TypeCode) : outcome string :=
  match type_code with
  | kInt => Ok "int"
  | kFloat => Ok "float"
  | kStr => Ok "str"
  | kBytes => Ok "bytes"
  | kHandle => Ok "handle"
  | kNull => Ok "NULL"
  | kNodeHandle => Ok "NodeHandle"
  | kArrayHandle => Ok "ArrayHandle"
  | kTVMType => Ok "TVMType"
  | kFuncHandle => Ok "FunctionHandle"
  | kModuleHandle => Ok "ModuleHandle"
  | _ => Fatal (UnknownTypeCode type_code)
  end.

(** [operator<<(std::ostream&, TVMType)]; [os] is the text written so far. *)
Definition write_TVMType (os : string) (t : TVMType) : outcome string :=
  name ← TypeCode2Str (code t);
  let os := os ++ name in
  if decide (code t = kHandle) then Ok os
  else
    let os := os ++ show_int (bits t) in
    if decide (lanes t <> 1)
    then Ok (os ++ "x" ++ show_int (lanes t))
    else Ok os.

Definition TVMType2String (t : TVMType) : outcome string :=
  write_TVMType "" t.

(** *** The C library's [sscanf], for the format ["%ux%u"] *)

(** [isspace] in the "C" locale. *)
Definition isspace (c : ascii) : bool :=
  let n := N_of_ascii c in
  (n =? 32)%N || ((9 <=? n)%N && (n <=? 13)%N).

Definition digit_of (c : ascii) : option Z :=
  let n := Z.of_N (N_of_ascii c) in
  if (48 <=? n) && (n <=? 57) then Some (n - 48) else None.

Fixpoint skip_space (s : string) : string :=
  match s with
  | String c s' => if isspace c then skip_space s' else s
  | EmptyString => s
  end.

Fixpoint scan_digits (acc : Z) (s : string) : Z * string :=
  match s with
  | String c s' =>
      match digit_of c with
      | Some d => scan_digits (10 * acc + d) s'
      | None => (acc, s)
      end
  | EmptyString => (acc, s)
  end.

(** What [%u] stores into an [unsigned] for the numeral [n] with the given
    sign: the numeral is converted as by [strtoul] (an [unsigned long] of 64
    bits: negated when signed, the largest value when it does not fit) and
    the result is truncated to 32 bits. *)
Definition store_unsigned (neg : bool) (n : Z) : Z :=
  let ul :=
    if 2 ^ 64 - 1 <? n then 2 ^ 64 - 1
    else if neg then wrap_uint 64 (- n) else n in
  wrap_uint 32 ul.

(** One [%u] directive: skip white space, an optional sign, then at least
    one decimal digit.  [None] is a matching failure. *)
Definition scan_u (s : string) : option (Z * string) :=
  let s := skip_space s in
  let '(neg, s) :=
    match s with
    | String "-"%char s' => (true, s')
    | String "+"%char s' => (false, s')
    | _ => (false, s)
    end in
  match s with
  | String c _ =>
      match digit_of c with
      | Some _ =>
          let '(n, rest) := scan_digits 0 s in
          Some (store_unsigned neg n, rest)
      | None => None
      end
  | EmptyString => None
  end.

(** [sscanf(scan, "%ux%u", &bits, &lanes)]: the pair is the content of
    [bits] and [lanes] afterwards; a directive that fails to match leaves
    its variable, and the later ones, as they were. *)
Definition sscanf_ux_u (scan : string) (bits lanes : Z) : Z * Z :=
  match scan_u scan with
  | None => (bits, lanes)
  | Some (b, rest) =>
      match rest with
      | String "x"%char rest' =>
          match scan_u rest' with
          | Some (l, _) => (b, l)
          | None => (b, lanes)
          end
      | _ => (b, lanes)
      end
  end.

(** *** [String2TVMType] *)

(** [s.substr(pos, n)], for [pos] within the string. *)
Definition substr (s : string) (pos n : nat) : string := substring pos n s.

Fixpoint until_nul (s : string) : string :=
  match s with
  | String c s' =>
      if Ascii.eqb c zero then EmptyString else String c (until_nul s')
  | EmptyString => EmptyString
  end.

Fixpoint drop_chars (k : nat) (s : string) : string :=
  match k, s with
  | O, _ => s
  | S k', String _ s' => drop_chars k' s'
  | S _, EmptyString => EmptyString
  end.

(** [s.c_str() + k]: the characters from position [k] up to the first NUL. *)
Definition c_str_from (s : string) (k : nat) : string :=
  until_nul (drop_chars k s).

Definition String2TVMType (s : string) : outcome TVMType :=
  let t_bits := 32 in
  let t_lanes := 1 in
  '(t_code, t_bits, scan) ←
    (if String.eqb (substr s 0 3) "int" then
       Ok (kInt, t_bits, c_str_from s 3)
     else if String.eqb (substr s 0 4) "uint" then
       Ok (kUInt, t_bits, c_str_from s 4)
     else if String.eqb (substr s 0 5) "float" then
       Ok (kFloat, t_bits, c_str_from s 5)
     else if String.eqb (substr s 0 6) "handle" then
       Ok (kHandle, 64, c_str_from s 6)
     else
       Fatal (UnknownType s));
  let '(bits, lanes) := sscanf_ux_u scan t_bits t_lanes in
  Ok {| code := t_code;
        bits := wrap_uint 8 bits;
        lanes := wrap_uint 16 lanes |}.

(* ===================================================================== *)
(** ** Tagged values *)
(* ===================================================================== *)

(** [TVMValue], the union of [c_runtime_api.h], by its active member:
    the member stored last.  [v_uninit] is a value that was never stored
    (a default-initialised union).  Pointers are addresses, 0 is [nullptr];
    a [double] is kept as its bit pattern. *)
Inductive TVMValue : Set :=
  | v_uninit
  | v_int64 (z : Z)
  | v_float64 (d : Z)
  | v_handle (p : Z)
  | v_str (p : Z)
  | v_type (t : TVMType).

#[global] Instance TVMValue_eq_dec : EqDecision TVMValue.
Proof. solve_decision. Defined.

Definition read_v_int64 (v : TVMValue) : outcome Z :=
  match v with v_int64 z => Ok z | _ => Undefined InactiveMember end.
Definition read_v_float64 (v : TVMValue) : outcome Z :=
  match v with v_float64 d => Ok d | _ => Undefined InactiveMember end.
Definition read_v_handle (v : TVMValue) : outcome Z :=
  match v with v_handle p => Ok p | _ => Undefined InactiveMember end.
Definition read_v_str (v : TVMValue) : outcome Z :=
  match v with v_str p => Ok p | _ => Undefined InactiveMember end.
Definition read_v_type (v : TVMValue) : outcome TVMType :=
  match v with v_type t => Ok t | _ => Undefined InactiveMember end.

(** [TVMPODValue_]: the value and its type code.  [TVMArgValue] and
    [TVMRetValue] derive from it and add no field. *)
Record TVMPODValue_ : Set := mkPOD {
  value_ : TVMValue;
  type_code_ : TypeCode
}.

#[global] Instance TVMPODValue_eq_dec : EqDecision TVMPODValue_.
Proof. solve_decision. Defined.

Definition set_type_code_ (c : TypeCode) (x : TVMPODValue_) : TVMPODValue_ :=
  {| value_ := value_ x; type_code_ := c |}.
Definition set_value_ (v : TVMValue) (x : TVMPODValue_) : TVMPODValue_ :=
  {| value_ := v; type_code_ := type_code_ x |}.

(** [TVM_CHECK_TYPE_CODE(CODE, T)]: [CHECK_EQ(CODE, T)] with the message
    [" expected " << TypeCode2Str(T) << " but get " << TypeCode2Str(CODE)]. *)
Definition TVM_CHECK_TYPE_CODE (CODE T : TypeCode) : outcome unit :=
  if decide (CODE = T) then Ok tt
  else
    expected ← TypeCode2Str T;
    actual ← TypeCode2Str CODE;
    Fatal (CheckFailed (" expected " ++ expected ++ " but get " ++ actual)).

Module TVMPODValue.

(** [operator int64_t()] *)
Definition to_int64 (self : TVMPODValue_) : outcome Z :=
  _ ← TVM_CHECK_TYPE_CODE (type_code_ self) kInt;
  read_v_int64 (value_ self).

(** [operator uint64_t()]: the [int64_t] member is returned as
    [uint64_t]. *)
Definition to_uint64 (self : TVMPODValue_) : outcome Z :=
  _ ← TVM_CHECK_TYPE_CODE (type_code_ self) kInt;
  v ← read_v_int64 (value_ self);
  Ok (wrap_uint 64 v).

(** [operator int()] *)
Definition to_int (self : TVMPODValue_) : outcome Z :=
  _ ← TVM_CHECK_TYPE_CODE (type_code_ self) kInt;
  v ← read_v_int64 (value_ self);
  if v <=? INT_MAX
  then Ok (wrap_int 32 v)
  else Fatal (CheckFailed "").

(** [operator bool()] *)
Definition to_bool (self : TVMPODValue_) : outcome bool :=
  _ ← TVM_CHECK_TYPE_CODE (type_code_ self) kInt;
  v ← read_v_int64 (value_ self);
  Ok (negb (v =? 0)).

(** [operator double()] *)
Definition to_double (self : TVMPODValue_) : outcome Z :=
  _ ← TVM_CHECK_TYPE_CODE (type_code_ self) kFloat;
  read_v_float64 (value_ self).

(** [operator void*()] *)
Definition to_voidp (self : TVMPODValue_) : outcome Z :=
  if decide (type_code_ self = kNull) then Ok 0
  else if decide (type_code_ self = kArrayHandle)
  then read_v_handle (value_ self)
  else
    _ ← TVM_CHECK_TYPE_CODE (type_code_ self) kHandle;
    read_v_handle (value_ self).

(** [operator TVMArray*()] *)
Definition to_TVMArray (self : TVMPODValue_) : outcome Z :=
  if decide (type_code_ self = kNull) then Ok 0
  else
    _ ← TVM_CHECK_TYPE_CODE (type_code_ self) kArrayHandle;
    read_v_handle (value_ self).

(** [type_code()] *)
Definition type_code (self : TVMPODValue_) : TypeCode := type_code_ self.

End TVMPODValue.

(* ===================================================================== *)
(** ** Objects and the heap *)
(* ===================================================================== *)

(** [PackedFunc]: the wrapped [std::function], as the identity of its
    target; [None] is the empty function. *)
Record PackedFunc : Set := mkPackedFunc { body_ : option N }.

(** Modelled from the spec: [Module] is declared in [module.h], which is
    not part of the sources at hand; an opaque object that can be copied,
    told apart by an identity. *)
Record Module : Set := mkModule { module_id : N }.

(** [std::shared_ptr<Node>], opaque, told apart by the node it shares. *)
Record NodePtr : Set := mkNodePtr { node_id : N }.

(** The objects a pointer of a tagged value can point to.  [ObjChars] is a
    NUL-terminated character array (its text, without the NUL);
    [ObjByteArray] is a [TVMByteArray] with the [size] bytes at [data]. *)
Inductive Object : Set :=
  | ObjString (s : string)
  | ObjPackedFunc (f : PackedFunc)
  | ObjModule (m : Module)
  | ObjNodePtr (n : NodePtr)
  | ObjChars (s : string)
  | ObjByteArray (data : string).

Inductive Class : Set :=
  | CString | CPackedFunc | CModule | CNodePtr | CChars | CByteArray.

#[global] Instance Class_eq_dec : EqDecision Class.
Proof. solve_decision. Defined.

Definition class_of (o : Object) : Class :=
  match o with
  | ObjString _ => CString
  | ObjPackedFunc _ => CPackedFunc
  | ObjModule _ => CModule
  | ObjNodePtr _ => CNodePtr
  | ObjChars _ => CChars
  | ObjByteArray _ => CByteArray
  end.

(** The heap: cell [i] is the object at address [i + 1], or [None] once it
    has been released.  Addresses are never handed out twice. *)
Abbreviation Heap := (list (option Object)).

Definition cell (p : Z) : nat := Z.to_nat (p - 1).

Definition deref (h : Heap) (p : Z) : option Object :=
  if p <=? 0 then None else mjoin (h !! cell p).

(** [*static_cast<T*>(p)], read. *)
Definition load (T : Class) (h : Heap) (p : Z) : outcome Object :=
  match deref h p with
  | Some o => if decide (class_of o = T) then Ok o
              else Undefined (BadPointer p)
  | None => Undefined (BadPointer p)
  end.

(** [*static_cast<T*>(p) = v] *)
Definition store (T : Class) (h : Heap) (p : Z) (v : Object) : outcome Heap :=
  _ ← load T h p;
  Ok (<[cell p := Some v]> h).

(** [new T(v)] *)
Definition new (h : Heap) (v : Object) : Heap * Z :=
  ((h ++ [Some v])%list, Z.of_nat (List.length h) + 1).

(** [delete static_cast<T*>(p)]; deleting [nullptr] does nothing. *)
Definition delete (T : Class) (h : Heap) (p : Z) : outcome Heap :=
  if decide (p = 0) then Ok h
  else
    match deref h p with
    | Some o => if decide (class_of o = T)
                then Ok (<[cell p := None]> h)
                else Undefined (BadDelete p)
    | None => Undefined (BadDelete p)
    end.

(** [ptr<T>()] followed by a dereference: the object of class [T] the
    handle points to. *)
Definition deref_ptr (T : Class) (h : Heap) (self : TVMPODValue_)
  : outcome Object :=
  p ← read_v_handle (value_ self);
  load T h p.

(* ===================================================================== *)
(** ** The borrowed view, [TVMArgValue] *)
(* ===================================================================== *)

Definition TVMArgValue : Set := TVMPODValue_.

Module ArgValue.

(** [TVMArgValue(value, type_code)] *)
Definition make (value : TVMValue) (type_code : TypeCode) : TVMArgValue :=
  mkPOD value type_code.

(** [operator TVMType()] past its [kStr] branch. *)
Definition to_TVMType_stored (self : TVMArgValue) : outcome TVMType :=
  _ ← TVM_CHECK_TYPE_CODE (type_code_ self) kTVMType;
  read_v_type (value_ self).

(** [operator std::string()].  In its first branch the type code is
    [kTVMType], so the call of [operator TVMType()] there runs past the
    [kStr] branch. *)
Definition to_string (h : Heap) (self : TVMArgValue) : outcome string :=
  if decide (type_code_ self = kTVMType) then
    t ← to_TVMType_stored self;
    TVMType2String t
  else if decide (type_code_ self = kBytes) then
    arr ← deref_ptr CByteArray h self;
    match arr with
    | ObjByteArray data => Ok data
    | _ => Undefined InactiveMember
    end
  else
    _ ← TVM_CHECK_TYPE_CODE (type_code_ self) kStr;
    p ← read_v_str (value_ self);
    chars ← load CChars h p;
    match chars with
    | ObjChars s => Ok s
    | _ => Undefined InactiveMember
    end.

(** [operator TVMType()] *)
Definition to_TVMType (h : Heap) (self : TVMArgValue) : outcome TVMType :=
  if decide (type_code_ self = kStr) then
    s ← to_string h self;
    String2TVMType s
  else to_TVMType_stored self.

(** [operator PackedFunc()] *)
Definition to_PackedFunc (h : Heap) (self : TVMArgValue)
  : outcome PackedFunc :=
  _ ← TVM_CHECK_TYPE_CODE (type_code_ self) kFuncHandle;
  o ← deref_ptr CPackedFunc h self;
  match o with
  | ObjPackedFunc f => Ok f
  | _ => Undefined InactiveMember
  end.

(** [operator Module()] *)
Definition to_Module (h : Heap) (self : TVMArgValue) : outcome Module :=
  _ ← TVM_CHECK_TYPE_CODE (type_code_ self) kModuleHandle;
  o ← deref_ptr CModule h self;
  match o with
  | ObjModule m => Ok m
  | _ => Undefined InactiveMember
  end.

End ArgValue.

(* ===================================================================== *)
(** ** The argument list, [TVMArgs] *)
(* ===================================================================== *)

(** The caller's memory holding argument arrays: the [TVMValue] cells and
    the [int] cells (type codes), by address, in units of one element. *)
Record Memory : Type := mkMemory {
  value_cells : gmap Z TVMValue;
  code_cells : gmap Z TypeCode
}.

Definition load_value (m : Memory) (a : Z) : outcome TVMValue :=
  match value_cells m !! a with
  | Some v => Ok v
  | None => Undefined (UnmappedRead a)
  end.

Definition load_code (m : Memory) (a : Z) : outcome TypeCode :=
  match code_cells m !! a with
  | Some c => Ok c
  | None => Undefined (UnmappedRead a)
  end.

(** The array with elements [l] lies at address [a] of the cells [m]. *)
Definition array_at {A} (m : gmap Z A) (a : Z) (l : list A) : Prop :=
  ∀ (k : nat) (x : A), l !! k = Some x → m !! (a + Z.of_nat k) = Some x.

(** An array of [l] written at address [a]. *)
Fixpoint write_array {A} (m : gmap Z A) (a : Z) (l : list A) : gmap Z A :=
  match l with
  | [] => m
  | x :: l' => <[a := x]> (write_array m (a + 1) l')
  end.

(** [TVMArgs]: two pointers and the count. *)
Record TVMArgs : Set := mkTVMArgs {
  values : Z;
  type_codes : Z;
  num_args : Z
}.

Module Args.

Definition size (self : TVMArgs) : Z := num_args self.

(** The message streamed after [CHECK_LT(i, num_args)]. *)
Definition not_enough (num_args i : Z) : string :=
  "not enough argument passed, " ++ show_int num_args ++ " passed"
  ++ " but request arg[" ++ show_int i ++ "].".

(** [values[i]] and [type_codes[i]] as a view, with no check. *)
Definition view_at (m : Memory) (self : TVMArgs) (i : Z)
  : outcome TVMArgValue :=
  v ← load_value m (values self + i);
  c ← load_code m (type_codes self + i);
  Ok (ArgValue.make v c).

(** [TVMArgs::operator[](int i)] *)
Definition at_ (m : Memory) (self : TVMArgs) (i : Z) : outcome TVMArgValue :=
  if i <? num_args self
  then view_at m self i
  else Fatal (CheckFailed (not_enough (num_args self) i)).

End Args.

(* ===================================================================== *)
(** ** The owning return slot, [TVMRetValue] *)
(* ===================================================================== *)

Definition TVMRetValue : Set := TVMPODValue_.

(** The class whose conversion operators [Assign<T>] uses on its source. *)
Inductive Source : Set := FromArgValue | FromRetValue.

Module RetValue.

(** [TVMRetValue()]: the base sets the type code, the union stays as it
    is. *)
Definition default : TVMRetValue := mkPOD v_uninit kNull.

(** [TVMRetValue(TVMRetValue&& other)]: the new slot, and [other] as the
    constructor leaves it. *)
Definition move_ctor (other : TVMRetValue) : TVMRetValue * TVMRetValue :=
  (mkPOD (value_ other) (type_code_ other), other).

(** [Clear()] *)
Definition Clear (h : Heap) (self : TVMRetValue)
  : outcome (Heap * TVMRetValue) :=
  if decide (type_code_ self = kNull) then Ok (h, self)
  else
    h ← match type_code_ self with
        | kStr =>
            p ← read_v_handle (value_ self); delete CString h p
        | kFuncHandle =>
            p ← read_v_handle (value_ self); delete CPackedFunc h p
        | kModuleHandle =>
            p ← read_v_handle (value_ self); delete CModule h p
        | kNodeHandle =>
            p ← read_v_handle (value_ self); delete CNodePtr h p
        | _ => Ok h
        end;
    Ok (h, set_type_code_ kNull self).

(** [~TVMRetValue()]: the slot is gone afterwards, the heap remains. *)
Definition destroy (h : Heap) (self : TVMRetValue) : outcome Heap :=
  '(h, _) ← Clear h self;
  Ok h.

(** [SwitchToPOD(type_code)] *)
Definition SwitchToPOD (h : Heap) (self : TVMRetValue) (type_code : TypeCode)
  : outcome (Heap * TVMRetValue) :=
  if decide (type_code_ self <> type_code) then
    '(h, self) ← Clear h self;
    Ok (h, set_type_code_ type_code self)
  else Ok (h, self).

(** [SwitchToClass<T>(type_code, v)]; [T] is the class of [v]. *)
Definition SwitchToClass (h : Heap) (self : TVMRetValue)
    (type_code : TypeCode) (v : Object) : outcome (Heap * TVMRetValue) :=
  if decide (type_code_ self <> type_code) then
    '(h, self) ← Clear h self;
    let self := set_type_code_ type_code self in
    let '(h, p) := new h v in
    Ok (h, set_value_ (v_handle p) self)
  else
    p ← read_v_handle (value_ self);
    h ← store (class_of v) h p v;
    Ok (h, self).

(** [operator=(TVMRetValue&& other)]: the heap, this slot and [other]
    afterwards.  The two slots are distinct objects. *)
Definition move_assign (h : Heap) (self other : TVMRetValue)
  : outcome (Heap * TVMRetValue * TVMRetValue) :=
  '(h, self) ← Clear h self;
  let self := set_value_ (value_ other) self in
  let self := set_type_code_ (type_code_ other) self in
  let other := set_type_code_ kNull other in
  Ok (h, self, other).

(** [operator=(int64_t value)] *)
Definition assign_int64 (h : Heap) (self : TVMRetValue) (value : Z)
  : outcome (Heap * TVMRetValue) :=
  '(h, self) ← SwitchToPOD h self kInt;
  Ok (h, set_value_ (v_int64 value) self).

(** [operator=(std::nullptr_t value)] *)
Definition assign_nullptr (h : Heap) (self : TVMRetValue)
  : outcome (Heap * TVMRetValue) :=
  '(h, self) ← SwitchToPOD h self kNull;
  Ok (h, set_value_ (v_handle 0) self).

(** [operator=(void* value)] *)
Definition assign_voidp (h : Heap) (self : TVMRetValue) (value : Z)
  : outcome (Heap * TVMRetValue) :=
  '(h, self) ← SwitchToPOD h self kHandle;
  Ok (h, set_value_ (v_handle value) self).

(** [operator=(TVMType t)] *)
Definition assign_TVMType (h : Heap) (self : TVMRetValue) (t : TVMType)
  : outcome (Heap * TVMRetValue) :=
  '(h, self) ← SwitchToPOD h self kTVMType;
  Ok (h, set_value_ (v_type t) self).

(** [operator=(std::string value)] *)
Definition assign_string (h : Heap) (self : TVMRetValue) (value : string)
  : outcome (Heap * TVMRetValue) :=
  SwitchToClass h self kStr (ObjString value).

(** [operator=(PackedFunc f)] *)
Definition assign_PackedFunc (h : Heap) (self : TVMRetValue) (f : PackedFunc)
  : outcome (Heap * TVMRetValue) :=
  SwitchToClass h self kFuncHandle (ObjPackedFunc f).

(** [operator=(Module m)] *)
Definition assign_Module (h : Heap) (self : TVMRetValue) (m : Module)
  : outcome (Heap * TVMRetValue) :=
  SwitchToClass h self kModuleHandle (ObjModule m).

(** [MoveToCHost(ret_value, ret_type_code)]: the slot afterwards and
    what was written to [*ret_value] and [*ret_type_code]. *)
Definition MoveToCHost (self : TVMRetValue)
  : outcome (TVMRetValue * TVMValue * TypeCode) :=
  if decide (type_code_ self <> kStr) then
    let ret_value := value_ self in
    let ret_type_code := type_code_ self in
    Ok (set_type_code_ kNull self, ret_value, ret_type_code)
  else Fatal (CheckFailed "").

(** [operator TVMType()] past its [kStr] branch. *)
Definition to_TVMType_stored (self : TVMRetValue) : outcome TVMType :=
  _ ← TVM_CHECK_TYPE_CODE (type_code_ self) kTVMType;
  read_v_type (value_ self).

(** [operator std::string()] *)
Definition to_string (h : Heap) (self : TVMRetValue) : outcome string :=
  if decide (type_code_ self = kTVMType) then
    t ← to_TVMType_stored self;
    TVMType2String t
  else
    _ ← TVM_CHECK_TYPE_CODE (type_code_ self) kStr;
    o ← deref_ptr CString h self;
    match o with
    | ObjString s => Ok s
    | _ => Undefined InactiveMember
    end.

(** [operator PackedFunc()] *)
Definition to_PackedFunc (h : Heap) (self : TVMRetValue)
  : outcome PackedFunc :=
  _ ← TVM_CHECK_TYPE_CODE (type_code_ self) kFuncHandle;
  o ← deref_ptr CPackedFunc h self;
  match o with
  | ObjPackedFunc f => Ok f
  | _ => Undefined InactiveMember
  end.

(** [operator Module()] *)
Definition to_Module (h : Heap) (self : TVMRetValue) : outcome Module :=
  _ ← TVM_CHECK_TYPE_CODE (type_code_ self) kModuleHandle;
  o ← deref_ptr CModule h self;
  match o with
  | ObjModule m => Ok m
  | _ => Undefined InactiveMember
  end.

(** The conversions [Assign<T>] applies to [other], by the class [T]. *)
Definition source_to_string (T : Source) : Heap → TVMPODValue_ → outcome string :=
  match T with
  | FromArgValue => ArgValue.to_string
  | FromRetValue => to_string
  end.

Definition source_to_PackedFunc (T : Source)
  : Heap → TVMPODValue_ → outcome PackedFunc :=
  match T with
  | FromArgValue => ArgValue.to_PackedFunc
  | FromRetValue => to_PackedFunc
  end.

(** [Assign<T>(other)].  The argument of [SwitchToClass<C>] is [other]
    converted to [C], before the call.  The [kModuleHandle] case names
    [PackedFunc] as the class. *)
Definition Assign (T : Source) (h : Heap) (self : TVMRetValue)
    (other : TVMPODValue_) : outcome (Heap * TVMRetValue) :=
  match type_code_ other with
  | kStr | kBytes =>
      v ← source_to_string T h other;
      SwitchToClass h self kStr (ObjString v)
  | kFuncHandle =>
      v ← source_to_PackedFunc T h other;
      SwitchToClass h self kFuncHandle (ObjPackedFunc v)
  | kModuleHandle =>
      v ← source_to_PackedFunc T h other;
      SwitchToClass h self kModuleHandle (ObjPackedFunc v)
  | kNodeHandle =>
      v ← deref_ptr CNodePtr h other;
      SwitchToClass h self kNodeHandle v
  | _ =>
      '(h, self) ← SwitchToPOD h self (type_code_ other);
      Ok (h, set_value_ (value_ other) self)
  end.

(** [TVMRetValue(const TVMRetValue& other)] *)
Definition copy_ctor (h : Heap) (other : TVMRetValue)
  : outcome (Heap * TVMRetValue) :=
  Assign FromRetValue h default other.

(** [operator=(const TVMRetValue& other)] *)
Definition copy_assign (h : Heap) (self other : TVMRetValue)
  : outcome (Heap * TVMRetValue) :=
  Assign FromRetValue h self other.

(** [operator=(TVMArgValue other)] *)
Definition assign_ArgValue (h : Heap) (self : TVMRetValue)
    (other : TVMArgValue) : outcome (Heap * TVMRetValue) :=
  Assign FromArgValue h self other.

(** [operator TVMType()] *)
Definition to_TVMType (h : Heap) (self : TVMRetValue) : outcome TVMType :=
  if decide (type_code_ self = kStr) then
    s ← to_string h self;
    String2TVMType s
  else to_TVMType_stored self.

(** [operator=(double value)]; the [double] by its bit pattern. *)
Definition assign_double (h : Heap) (self : TVMRetValue) (value : Z)
  : outcome (Heap * TVMRetValue) :=
  '(h, self) ← SwitchToPOD h self kFloat;
  Ok (h, set_value_ (v_float64 value) self).

(** [operator=(int value)] *)
Definition assign_int (h : Heap) (self : TVMRetValue) (value : Z)
  : outcome (Heap * TVMRetValue) :=
  '(h, self) ← SwitchToPOD h self kInt;
  Ok (h, set_value_ (v_int64 value) self).

(** [operator=(bool value)] *)
Definition assign_bool (h : Heap) (self : TVMRetValue) (value : bool)
  : outcome (Heap * TVMRetValue) :=
  '(h, self) ← SwitchToPOD h self kInt;
  Ok (h, set_value_ (v_int64 (if value then 1 else 0)) self).

(** [value()] *)
Definition value (self : TVMRetValue) : outcome TVMValue :=
  if decide (type_code_ self <> kNodeHandle ∧
             type_code_ self <> kFuncHandle ∧
             type_code_ self <> kModuleHandle ∧
             type_code_ self <> kStr)
  then Ok (value_ self)
  else Fatal (CheckFailed "TVMRetValue.value can only be used for POD data").

End RetValue.

(* ===================================================================== *)
(** ** Packing arguments, [TVMArgsSetter] *)
(* ===================================================================== *)

(** A write into an argument array: the cell has to be there. *)
Definition store_value (m : Memory) (a : Z) (v : TVMValue) : outcome Memory :=
  match value_cells m !! a with
  | Some _ => Ok (mkMemory (<[a := v]> (value_cells m)) (code_cells m))
  | None => Undefined (BadPointer a)
  end.

Definition store_code (m : Memory) (a : Z) (c : TypeCode) : outcome Memory :=
  match code_cells m !! a with
  | Some _ => Ok (mkMemory (value_cells m) (<[a := c]> (code_cells m)))
  | None => Undefined (BadPointer a)
  end.

(** [TVMArgsSetter]: the two arrays it fills. *)
Record TVMArgsSetter : Set := mkSetter {
  values_ : Z;
  type_codes_ : Z
}.

(** An argument of a call, by the overload of
    [TVMArgsSetter::operator()] that takes it.  The overloads for
    [std::string&] and for [TVMRetValue&] store a pointer into the
    characters of a string object and are not among them. *)
Inductive PackArg : Set :=
  | PIntegral (value : Z)        (* an integral type other than uint64_t *)
  | PUInt64 (value : Z)
  | PDouble (value : Z)
  | PNullptr
  | PArgValue (value : TVMArgValue)
  | PVoidp (value : Z)
  | PTVMArray (value : Z)
  | PTVMType (value : TVMType)
  | PChars (value : Z)           (* const char* *)
  | PPackedFunc (value : Z)      (* PackedFunc&, by its address *)
  | PModule (value : Z).         (* Module&, by its address *)

Module Setter.

(** [values_[i].member = ...; type_codes_[i] = c;] *)
Definition set_cell (self : TVMArgsSetter) (m : Memory) (i : Z)
    (v : TVMValue) (c : TypeCode) : outcome Memory :=
  m ← store_value m (values_ self + i) v;
  store_code m (type_codes_ self + i) c.

(** [operator()(size_t i, T value)] for an integral [T] *)
Definition set_integral (self : TVMArgsSetter) (m : Memory) (i : Z)
    (value : Z) : outcome Memory :=
  set_cell self m i (v_int64 (wrap_int 64 value)) kInt.

(** [operator()(size_t i, uint64_t value)]: the value is stored, then
    checked. *)
Definition set_uint64 (self : TVMArgsSetter) (m : Memory) (i : Z)
    (value : Z) : outcome Memory :=
  m ← store_value m (values_ self + i) (v_int64 (wrap_int 64 value));
  if value <=? INT64_MAX
  then store_code m (type_codes_ self + i) kInt
  else Fatal (CheckFailed "").

(** [operator()(size_t i, double value)] *)
Definition set_double (self : TVMArgsSetter) (m : Memory) (i : Z)
    (value : Z) : outcome Memory :=
  set_cell self m i (v_float64 value) kFloat.

(** [operator()(size_t i, std::nullptr_t value)] *)
Definition set_nullptr (self : TVMArgsSetter) (m : Memory) (i : Z)
  : outcome Memory :=
  set_cell self m i (v_handle 0) kNull.

(** [operator()(size_t i, const TVMArgValue& value)] *)
Definition set_ArgValue (self : TVMArgsSetter) (m : Memory) (i : Z)
    (value : TVMArgValue) : outcome Memory :=
  set_cell self m i (value_ value) (type_code_ value).

(** [operator()(size_t i, void* value)] *)
Definition set_voidp (self : TVMArgsSetter) (m : Memory) (i : Z)
    (value : Z) : outcome Memory :=
  set_cell self m i (v_handle value) kHandle.

(** [operator()(size_t i, TVMArray* value)] *)
Definition set_TVMArray (self : TVMArgsSetter) (m : Memory) (i : Z)
    (value : Z) : outcome Memory :=
  set_cell self m i (v_handle value) kArrayHandle.

(** [operator()(size_t i, TVMType value)] *)
Definition set_TVMType (self : TVMArgsSetter) (m : Memory) (i : Z)
    (value : TVMType) : outcome Memory :=
  set_cell self m i (v_type value) kTVMType.

(** [operator()(size_t i, const char* value)] *)
Definition set_chars (self : TVMArgsSetter) (m : Memory) (i : Z)
    (value : Z) : outcome Memory :=
  set_cell self m i (v_str value) kStr.

(** [operator()(size_t i, PackedFunc& value)]: [&value] is stored. *)
Definition set_PackedFunc (self : TVMArgsSetter) (m : Memory) (i : Z)
    (value : Z) : outcome Memory :=
  set_cell self m i (v_handle value) kFuncHandle.

(** [operator()(size_t i, Module& value)]: [&value] is stored. *)
Definition set_Module (self : TVMArgsSetter) (m : Memory) (i : Z)
    (value : Z) : outcome Memory :=
  set_cell self m i (v_handle value) kModuleHandle.

(** The overload chosen for an argument. *)
Definition apply (self : TVMArgsSetter) (i : nat) (a : PackArg) (m : Memory)
  : outcome Memory :=
  let i := Z.of_nat i in
  match a with
  | PIntegral v => set_integral self m i v
  | PUInt64 v => set_uint64 self m i v
  | PDouble v => set_double self m i v
  | PNullptr => set_nullptr self m i
  | PArgValue v => set_ArgValue self m i v
  | PVoidp v => set_voidp self m i v
  | PTVMArray v => set_TVMArray self m i v
  | PTVMType v => set_TVMType self m i v
  | PChars v => set_chars self m i v
  | PPackedFunc v => set_PackedFunc self m i v
  | PModule v => set_Module self m i v
  end.

End Setter.

(** [detail::for_each_dispatcher<stop, I, F, Args...>::run]: [f(I, arg)] for
    the argument at [I], then the rest from [I + 1]; nothing once the
    arguments are used up. *)
Fixpoint for_each_from {A St : Type} (I : nat) (args : list A)
    (f : nat → A → St → outcome St) (s : St) : outcome St :=
  match args with
  | [] => Ok s
  | a :: rest =>
      s ← f I a s;
      for_each_from (S I) rest f s
  end.

(** [for_each(args, f)] *)
Definition for_each {A St : Type} (args : list A)
    (f : nat → A → St → outcome St) (s : St) : outcome St :=
  for_each_from 0 args f s.

(** The packing step of [PackedFunc::operator()]: the arguments are set
    into the arrays at [values] and [type_codes], and the argument list over
    them is formed. *)
Definition pack (m : Memory) (values type_codes : Z) (args : list PackArg)
  : outcome (Memory * TVMArgs) :=
  m ← for_each args (Setter.apply (mkSetter values type_codes)) m;
  Ok (m, mkTVMArgs values type_codes (Z.of_nat (length args))).


(* ===================================================================== *)
(** ** Vocabulary of the properties *)
(* ===================================================================== *)

(** The string [s] begins with [p]. *)
Definition begins_with (p s : string) : Prop := ∃ rest, s = p ++ rest.

(** No numeral follows the prefix: the first [%u] of the scan finds no
    number in [rest]. *)
Definition numeral_absent (rest : string) : Prop :=
  scan_u (until_nul rest) = None.

(** A text that does not go on with a digit: where a numeral ends. *)
Definition numeral_ends (rest : string) : Prop :=
  match rest with
  | String c _ => digit_of c = None
  | EmptyString => True
  end.

(** Two arguments in the caller's memory: the values at address 100, the
    type codes at address 200. *)
Definition two_args_memory : Memory :=
  mkMemory (write_array ∅ 100 [v_int64 10; v_float64 0])
           (write_array ∅ 200 [kInt; kFloat]).

(** One argument at the same addresses, with other data of the caller in
    the cells just before the two arrays. *)
Definition one_arg_memory : Memory :=
  mkMemory (<[99 := v_handle 4096]> (write_array ∅ 100 [v_int64 10]))
           (<[199 := kHandle]> (write_array ∅ 200 [kInt])).

(** Format a descriptor, then parse the text. *)
Definition Parse_Format (d : TVMType) : outcome TVMType :=
  s ← TVMType2String d;
  String2TVMType s.

(** The descriptors of the round-trip property: lanes 1, 4 or 8, bits
    1, 8, 16, 32 or 64, one of the four codes, 64 bits for a handle. *)
Definition representable (d : TVMType) : Prop :=
  lanes d ∈ [1; 4; 8] ∧
  bits d ∈ [1; 8; 16; 32; 64] ∧
  code d ∈ [kInt; kUInt; kFloat; kHandle] ∧
  (code d = kHandle → bits d = 64).

(** The class of the box a slot owns under a type code, if any: the one
    [Clear] releases. *)
Definition box_class (c : TypeCode) : option Class :=
  match c with
  | kStr => Some CString
  | kFuncHandle => Some CPackedFunc
  | kModuleHandle => Some CModule
  | kNodeHandle => Some CNodePtr
  | _ => None
  end.

(** A slot in order: under a type code with a box, the handle points to a
    live box of that class. *)
Definition slot_ok (h : Heap) (self : TVMRetValue) : Prop :=
  match box_class (type_code_ self) with
  | Some T => ∃ p o, value_ self = v_handle p ∧ p ≠ 0 ∧
                     deref h p = Some o ∧ class_of o = T
  | None => True
  end.

(** Construct a slot, assign it the string [s], move-construct a second
    slot from it, destroy the moved-from slot, then the second one. *)
Definition move_construct_then_destroy (h : Heap) (s : string)
  : outcome Heap :=
  '(h, a) ← RetValue.assign_string h RetValue.default s;
  let '(b, a) := RetValue.move_ctor a in
  h ← RetValue.destroy h a;
  RetValue.destroy h b.

(** The same with a move assignment into a fresh slot. *)
Definition move_assign_then_destroy (h : Heap) (s : string)
  : outcome Heap :=
  '(h, a) ← RetValue.assign_string h RetValue.default s;
  '(h, b, a) ← RetValue.move_assign h RetValue.default a;
  h ← RetValue.destroy h a;
  RetValue.destroy h b.

(** The number of live boxes of a heap. *)
Definition live_boxes (h : Heap) : nat := length (omap id h).

(** Whether a slot has a box, by its type code. *)
Definition has_box (self : TVMRetValue) : nat :=
  match box_class (type_code_ self) with Some _ => 1 | None => 0 end.

(** The cells [a], ..., [a + n - 1] are there. *)
Definition cells_at {A} (m : gmap Z A) (a : Z) (n : nat) : Prop :=
  ∀ k : nat, (k < n)%nat → is_Some (m !! (a + Z.of_nat k)).

(** The tagged value an argument is packed as. *)
Definition packed_as (a : PackArg) : TVMArgValue :=
  match a with
  | PIntegral v => mkPOD (v_int64 (wrap_int 64 v)) kInt
  | PUInt64 v => mkPOD (v_int64 (wrap_int 64 v)) kInt
  | PDouble v => mkPOD (v_float64 v) kFloat
  | PNullptr => mkPOD (v_handle 0) kNull
  | PArgValue v => v
  | PVoidp v => mkPOD (v_handle v) kHandle
  | PTVMArray v => mkPOD (v_handle v) kArrayHandle
  | PTVMType v => mkPOD (v_type v) kTVMType
  | PChars v => mkPOD (v_str v) kStr
  | PPackedFunc v => mkPOD (v_handle v) kFuncHandle
  | PModule v => mkPOD (v_handle v) kModuleHandle
  end.

(** An argument the setter accepts: a [uint64_t] has to fit an
    [int64_t]. *)
Definition packable (a : PackArg) : Prop :=
  match a with
  | PUInt64 v => v <= INT64_MAX
  | _ => True
  end.

(** The prefixes [String2TVMType] knows, with the code and the default
    width each one sets. *)
Definition type_prefixes : list (string * TypeCode * Z) :=
  [("int", kInt, 32); ("uint", kUInt, 32);
   ("float", kFloat, 32); ("handle", kHandle, 64)].

(** A text that neither goes on with a digit nor with the lane separator. *)
Definition suffix_ends (rest : string) : Prop :=
  match rest with
  | String c _ => digit_of c = None ∧ c <> "x"%char
  | EmptyString => True
  end.

(** An operation on a slot succeeded and left a slot in order. *)
Definition succeeds_in_order (r : outcome (Heap * TVMRetValue)) : Prop :=
  ∃ h' self', r = Ok (h', self') ∧ slot_ok h' self'.

(** An operation on a slot succeeded, and [read] on the slot it left gives
    [x]. *)
Definition reads_back {T : Type} (r : outcome (Heap * TVMRetValue))
    (read : Heap → TVMRetValue → outcome T) (x : T) : Prop :=
  ∃ h' self', r = Ok (h', self') ∧ read h' self' = Ok x.




(** The argument arrays of a setter have their cell [i]. *)
Definition cell_there (m : Memory) (self : TVMArgsSetter) (i : Z) : Prop :=
  is_Some (value_cells m !! (values_ self + i)) ∧
  is_Some (code_cells m !! (type_codes_ self + i)).

(* ===================================================================== *)
(** ** Sanity checks on concrete inputs *)
(* ===================================================================== *)

Example TVMType2String_float32x4 :
  TVMType2String (mkTVMType kFloat 32 4) = Ok "float32x4".
Proof. reflexivity. Qed.

Example String2TVMType_float32x4 :
  String2TVMType "float32x4" = Ok (mkTVMType kFloat 32 4).
Proof. vm_compute. reflexivity. Qed.

Example String2TVMType_uint8 :
  String2TVMType "uint8" = Ok (mkTVMType kUInt 8 1).
Proof. vm_compute. reflexivity. Qed.

Example TVMType2String_uint8 :
  TVMType2String (mkTVMType kUInt 8 1) = Fatal (UnknownTypeCode kUInt).
Proof. reflexivity. Qed.

Example String2TVMType_handle :
  String2TVMType "handle" = Ok (mkTVMType kHandle 64 1).
Proof. vm_compute. reflexivity. Qed.

Example copy_ctor_int :
  RetValue.copy_ctor [] (mkPOD (v_int64 7) kInt) = Ok ([], mkPOD (v_int64 7) kInt).
Proof. reflexivity. Qed.

Example assign_string_fresh :
  RetValue.assign_string [] RetValue.default "x"
  = Ok ([Some (ObjString "x")], mkPOD (v_handle 1) kStr).
Proof. reflexivity. Qed.

Example move_construct_then_destroy_x :
  move_construct_then_destroy [] "x" = Undefined (BadDelete 1).
Proof. reflexivity. Qed.

Example move_assign_then_destroy_x :
  move_assign_then_destroy [] "x" = Ok [None].
Proof. reflexivity. Qed.

Example to_int_300 :
  TVMPODValue.to_int (mkPOD (v_int64 300) kInt) = Ok 300.
Proof. reflexivity. Qed.

Example Parse_Format_handle_x4 :
  Parse_Format (mkTVMType kHandle 64 4) = Ok (mkTVMType kHandle 64 1).
Proof. vm_compute. reflexivity. Qed.

(* ===================================================================== *)
(** ** Decimal numerals: printing and scanning *)
(* ===================================================================== *)

Lemma string_app_cons (c : ascii) (s t : string) :
  String c s ++ t = String c (s ++ t).
Proof. reflexivity. Qed.

Lemma string_app_nil (t : string) : "" ++ t = t.
Proof. reflexivity. Qed.

Section Decimal.

Import Decimal.

Lemma scan_digits_uint (d d' : uint) (rest : string) :
  scan_digits (Z.of_N (DecimalPos.Unsigned.of_lu d'))
              (NilEmpty.string_of_uint d ++ rest)
  = scan_digits (Z.of_N (DecimalPos.Unsigned.of_lu (revapp d d'))) rest.
Proof.
  revert d'. induction d; intros d'; cbn [NilEmpty.string_of_uint revapp];
    [reflexivity | ..];
    rewrite <- IHd, string_app_cons; cbn [scan_digits];
    (match goal with
     | |- context [digit_of ?c] =>
         let r := eval vm_compute in (digit_of c) in
         change (digit_of c) with r
     end);
    cbv iota; f_equal; cbn [DecimalPos.Unsigned.of_lu]; lia.
Qed.

(** Scanning the decimal text of [n] reads [n] back. *)
Lemma scan_digits_show (n : N) (rest : string) :
  scan_digits 0 (NilEmpty.string_of_uint (N.to_uint n) ++ rest)
  = scan_digits (Z.of_N n) rest.
Proof.
  change 0 with (Z.of_N (DecimalPos.Unsigned.of_lu Nil)).
  rewrite scan_digits_uint.
  change (revapp (N.to_uint n) Nil) with (rev (N.to_uint n)).
  rewrite <- DecimalPos.Unsigned.of_uint_alt.
  change (Pos.of_uint (N.to_uint n)) with (N.of_uint (N.to_uint n)).
  now rewrite DecimalN.Unsigned.of_to.
Qed.

(** The decimal text of a number starts with a digit. *)
Lemma show_starts_with_digit (n : N) :
  ∃ c s d, NilEmpty.string_of_uint (N.to_uint n) = String c s
           ∧ digit_of c = Some d.
Proof.
  assert (Hnil : N.to_uint n <> Nil).
  { destruct n as [|p]; [discriminate |].
    apply DecimalPos.Unsigned.to_uint_nonnil. }
  destruct (N.to_uint n); [congruence | ..];
    cbn [NilEmpty.string_of_uint]; do 3 eexists; split;
    try reflexivity; vm_compute; reflexivity.
Qed.

End Decimal.

Lemma scan_digits_end (acc : Z) (rest : string) :
  numeral_ends rest → scan_digits acc rest = (acc, rest).
Proof.
  destruct rest as [|c rest]; [reflexivity |].
  cbn [numeral_ends scan_digits]. now intros ->.
Qed.

Lemma show_int_nonneg (n : Z) :
  0 <= n → show_int n = NilEmpty.string_of_uint (N.to_uint (Z.to_N n)).
Proof.
  intros Hn. unfold show_int.
  destruct (Z.ltb_spec n 0); [lia | reflexivity].
Qed.

Lemma store_unsigned_small (n : Z) :
  0 <= n < 2 ^ 32 → store_unsigned false n = n.
Proof.
  intros Hn. unfold store_unsigned, wrap_uint.
  destruct (Z.ltb_spec (2 ^ 64 - 1) n); [lia |].
  apply Z.mod_small. lia.
Qed.

(** [%u] on the decimal text of [n], followed by something that is not a
    digit, stores [n] and stops there. *)
Lemma scan_u_show (n : Z) (rest : string) :
  0 <= n < 2 ^ 32 → numeral_ends rest →
  scan_u (show_int n ++ rest) = Some (n, rest).
Proof.
  intros Hn Hrest. rewrite show_int_nonneg by lia.
  pose proof (scan_digits_show (Z.to_N n) rest) as Hscan.
  rewrite (scan_digits_end _ rest) in Hscan by assumption.
  rewrite Z2N.id in Hscan by lia.
  assert (Hnil : N.to_uint (Z.to_N n) <> Decimal.Nil).
  { destruct (Z.to_N n) as [|p]; [discriminate |].
    apply DecimalPos.Unsigned.to_uint_nonnil. }
  destruct (N.to_uint (Z.to_N n)) as [|u|u|u|u|u|u|u|u|u|u];
    [congruence | ..];
    cbn [NilEmpty.string_of_uint] in *; rewrite string_app_cons in *;
    unfold scan_u; cbn [skip_space];
    (match goal with
     | |- context [isspace ?c] =>
         change (isspace c) with false; cbv iota;
         let r := eval vm_compute in (digit_of c) in
         change (digit_of c) with r; cbv iota
     end);
    rewrite Hscan, store_unsigned_small by lia; reflexivity.
Qed.

Lemma until_nul_uint (d : Decimal.uint) (t : string) :
  until_nul (NilEmpty.string_of_uint d ++ t)
  = NilEmpty.string_of_uint d ++ until_nul t.
Proof.
  induction d; cbn [NilEmpty.string_of_uint];
    rewrite ?string_app_nil, ?string_app_cons; [reflexivity | ..];
    cbn [until_nul];
    (match goal with
     | |- context [Ascii.eqb ?c zero] =>
         change (Ascii.eqb c zero) with false; cbv iota
     end);
    rewrite IHd, ?string_app_cons; reflexivity.
Qed.

Lemma until_nul_show (n : Z) (t : string) :
  0 <= n → until_nul (show_int n ++ t) = show_int n ++ until_nul t.
Proof. intros Hn. rewrite show_int_nonneg by lia. apply until_nul_uint. Qed.

Lemma string_app_nil_r (s : string) : s ++ "" = s.
Proof. induction s as [|c s IH]; [reflexivity |]. now rewrite string_app_cons, IH. Qed.

Lemma sscanf_bits (b tb tl : Z) :
  0 <= b < 2 ^ 32 → sscanf_ux_u (show_int b) tb tl = (b, tl).
Proof.
  intros Hb. unfold sscanf_ux_u.
  rewrite <- (string_app_nil_r (show_int b)).
  now rewrite scan_u_show by (try lia; exact I).
Qed.

Lemma sscanf_bits_lanes (b l tb tl : Z) :
  0 <= b < 2 ^ 32 → 0 <= l < 2 ^ 32 →
  sscanf_ux_u (show_int b ++ "x" ++ show_int l) tb tl = (b, l).
Proof.
  intros Hb Hl. unfold sscanf_ux_u.
  rewrite scan_u_show by (try lia; reflexivity).
  rewrite string_app_cons, string_app_nil.
  rewrite <- (string_app_nil_r (show_int l)).
  now rewrite scan_u_show by (try lia; exact I).
Qed.

(** The text after a matched prefix, as [sscanf] sees it. *)
Lemma c_str_from_numeral (b l : Z) :
  0 <= b → 0 <= l →
  until_nul (show_int b) = show_int b ∧
  until_nul (show_int b ++ "x" ++ show_int l) = show_int b ++ "x" ++ show_int l.
Proof.
  intros Hb Hl. split.
  - rewrite <- (string_app_nil_r (show_int b)) at 1.
    rewrite until_nul_show by lia. apply string_app_nil_r.
  - rewrite until_nul_show by lia. f_equal.
    rewrite string_app_cons, string_app_nil. cbn [until_nul].
    change (Ascii.eqb "x" zero) with false. cbv iota. f_equal.
    rewrite <- (string_app_nil_r (show_int l)) at 1.
    rewrite until_nul_show by lia. apply string_app_nil_r.
Qed.

Lemma string_app_assoc (s t u : string) : (s ++ t) ++ u = s ++ (t ++ u).
Proof.
  induction s as [|c s IH]; [reflexivity |].
  now rewrite !string_app_cons, IH.
Qed.

Lemma substring_0_0 (s : string) : substring 0 0 s = "".
Proof. now destruct s. Qed.

Ltac eval_prefix_tests :=
  unfold String2TVMType, substr, c_str_from;
  rewrite !string_app_cons, string_app_nil;
  cbn [substring drop_chars]; rewrite ?substring_0_0;
  cbn [String.eqb Ascii.eqb Bool.eqb]; cbv iota;
  unfold mbind, outcome_bind; cbv beta iota.

(** What [String2TVMType] does after each of the four prefixes. *)
Lemma String2TVMType_after_int (tail : string) :
  String2TVMType ("int" ++ tail)
  = let '(b, l) := sscanf_ux_u (until_nul tail) 32 1 in
    Ok (mkTVMType kInt (wrap_uint 8 b) (wrap_uint 16 l)).
Proof. eval_prefix_tests. reflexivity. Qed.

Lemma String2TVMType_after_uint (tail : string) :
  String2TVMType ("uint" ++ tail)
  = let '(b, l) := sscanf_ux_u (until_nul tail) 32 1 in
    Ok (mkTVMType kUInt (wrap_uint 8 b) (wrap_uint 16 l)).
Proof. eval_prefix_tests. reflexivity. Qed.

Lemma String2TVMType_after_float (tail : string) :
  String2TVMType ("float" ++ tail)
  = let '(b, l) := sscanf_ux_u (until_nul tail) 32 1 in
    Ok (mkTVMType kFloat (wrap_uint 8 b) (wrap_uint 16 l)).
Proof. eval_prefix_tests. reflexivity. Qed.

Lemma String2TVMType_after_handle (tail : string) :
  String2TVMType ("handle" ++ tail)
  = let '(b, l) := sscanf_ux_u (until_nul tail) 64 1 in
    Ok (mkTVMType kHandle (wrap_uint 8 b) (wrap_uint 16 l)).
Proof. eval_prefix_tests. reflexivity. Qed.

Lemma wrap_uint_small (w z : Z) : 0 <= z < 2 ^ w → wrap_uint w z = z.
Proof. intros H. unfold wrap_uint. now apply Z.mod_small. Qed.

(** Round trip for the codes [kInt] and [kFloat], at every width and lane
    count the descriptor can hold. *)
Lemma Parse_Format_Int_Float (c : TypeCode) (b l : Z) :
  c = kInt ∨ c = kFloat → 0 <= b < 256 → 0 <= l < 65536 →
  Parse_Format (mkTVMType c b l) = Ok (mkTVMType c b l).
Proof.
  intros Hc Hb Hl.
  destruct (c_str_from_numeral b l) as [Hn1 Hn2]; [lia | lia |].
  unfold Parse_Format, TVMType2String, write_TVMType.
  destruct Hc as [-> | ->]; cbn [code bits lanes TypeCode2Str];
    unfold mbind, outcome_bind;
    (destruct (decide _) as [Hk | _]; [discriminate Hk |]);
    destruct (decide (l <> 1)) as [Hl1 | Hl1];
    rewrite string_app_nil;
    rewrite ?string_app_assoc;
    rewrite ?String2TVMType_after_int, ?String2TVMType_after_float;
    rewrite ?Hn1, ?Hn2;
    rewrite ?sscanf_bits, ?sscanf_bits_lanes by lia;
    rewrite !wrap_uint_small by lia.
  - reflexivity.
  - f_equal. f_equal. destruct (decide (l = 1)); [congruence | tauto].
  - reflexivity.
  - f_equal. f_equal. destruct (decide (l = 1)); [congruence | tauto].
Qed.

Lemma substring_drop_chars (n : nat) (s : string) :
  s = substring 0 n s ++ drop_chars n s.
Proof.
  revert s. induction n as [|n IH]; intros [|c s]; cbn [substring drop_chars];
    rewrite ?string_app_nil, ?string_app_cons; try reflexivity.
  f_equal. apply IH.
Qed.

Lemma substr_eqb_begins (s p : string) (n : nat) :
  String.eqb (substr s 0 n) p = true → begins_with p s.
Proof.
  intros H. apply String.eqb_eq in H. exists (drop_chars n s).
  rewrite <- H. apply substring_drop_chars.
Qed.

Lemma sscanf_no_numeral (scan : string) (tb tl : Z) :
  scan_u scan = None → sscanf_ux_u scan tb tl = (tb, tl).
Proof. intros H. unfold sscanf_ux_u. now rewrite H. Qed.

(** The code is decided by the prefix alone, whatever follows it. *)
Lemma String2TVMType_code_of_prefix (rest : string) :
  (∃ b l, String2TVMType ("int" ++ rest) = Ok (mkTVMType kInt b l)) ∧
  (∃ b l, String2TVMType ("uint" ++ rest) = Ok (mkTVMType kUInt b l)) ∧
  (∃ b l, String2TVMType ("float" ++ rest) = Ok (mkTVMType kFloat b l)) ∧
  (∃ b l, String2TVMType ("handle" ++ rest) = Ok (mkTVMType kHandle b l)).
Proof.
  rewrite String2TVMType_after_int, String2TVMType_after_uint,
    String2TVMType_after_float, String2TVMType_after_handle.
  repeat split;
    (destruct (sscanf_ux_u _ _ _) as [b l]; eauto).
Qed.

Lemma String2TVMType_unknown_prefix (s : string) :
  ¬ begins_with "int" s → ¬ begins_with "uint" s →
  ¬ begins_with "float" s → ¬ begins_with "handle" s →
  String2TVMType s = Fatal (UnknownType s).
Proof.
  intros Hi Hu Hf Hh. unfold String2TVMType.
  destruct (String.eqb (substr s 0 3) "int") eqn:E3;
    [exfalso; eauto using substr_eqb_begins |].
  destruct (String.eqb (substr s 0 4) "uint") eqn:E4;
    [exfalso; eauto using substr_eqb_begins |].
  destruct (String.eqb (substr s 0 5) "float") eqn:E5;
    [exfalso; eauto using substr_eqb_begins |].
  destruct (String.eqb (substr s 0 6) "handle") eqn:E6;
    [exfalso; eauto using substr_eqb_begins |].
  reflexivity.
Qed.

Lemma String2TVMType_defaults (rest : string) :
  numeral_absent rest →
  String2TVMType ("int" ++ rest) = Ok (mkTVMType kInt 32 1) ∧
  String2TVMType ("uint" ++ rest) = Ok (mkTVMType kUInt 32 1) ∧
  String2TVMType ("float" ++ rest) = Ok (mkTVMType kFloat 32 1) ∧
  String2TVMType ("handle" ++ rest) = Ok (mkTVMType kHandle 64 1).
Proof.
  unfold numeral_absent. intros H.
  rewrite String2TVMType_after_int, String2TVMType_after_uint,
    String2TVMType_after_float, String2TVMType_after_handle.
  rewrite !sscanf_no_numeral by assumption.
  repeat split.
Qed.

(** C5. [String2TVMType] classifies its input by the prefix: a string that
    begins with ["uint"] gets the code [kUInt], with ["int"] the code
    [kInt], with ["float"] [kFloat], with ["handle"] [kHandle]; a string
    with none of the four prefixes is a fatal error; without a numeral
    after the prefix the result keeps 32 bits and 1 lane, 64 bits after
    ["handle"]. *)
Theorem String2TVMType_classifies_by_prefix :
  (∀ s, begins_with "uint" s →
        ∃ b l, String2TVMType s = Ok (mkTVMType kUInt b l)) ∧
  (∀ s, begins_with "int" s →
        ∃ b l, String2TVMType s = Ok (mkTVMType kInt b l)) ∧
  (∀ s, begins_with "float" s →
        ∃ b l, String2TVMType s = Ok (mkTVMType kFloat b l)) ∧
  (∀ s, begins_with "handle" s →
        ∃ b l, String2TVMType s = Ok (mkTVMType kHandle b l)) ∧
  (∀ s, ¬ begins_with "int" s → ¬ begins_with "uint" s →
        ¬ begins_with "float" s → ¬ begins_with "handle" s →
        String2TVMType s = Fatal (UnknownType s)) ∧
  (∀ rest, numeral_absent rest →
        String2TVMType ("int" ++ rest) = Ok (mkTVMType kInt 32 1) ∧
        String2TVMType ("uint" ++ rest) = Ok (mkTVMType kUInt 32 1) ∧
        String2TVMType ("float" ++ rest) = Ok (mkTVMType kFloat 32 1) ∧
        String2TVMType ("handle" ++ rest) = Ok (mkTVMType kHandle 64 1)) ∧
  numeral_absent "".
Proof.
  repeat split.
  - intros s [rest ->]. apply String2TVMType_code_of_prefix.
  - intros s [rest ->]. apply String2TVMType_code_of_prefix.
  - intros s [rest ->]. apply String2TVMType_code_of_prefix.
  - intros s [rest ->]. apply String2TVMType_code_of_prefix.
  - apply String2TVMType_unknown_prefix.
  - now apply String2TVMType_defaults.
  - now apply String2TVMType_defaults.
  - now apply String2TVMType_defaults.
  - now apply String2TVMType_defaults.
Qed.

Lemma String2TVMType_classifies_by_prefix_witness :
  (∃ b l, String2TVMType "uint8" = Ok (mkTVMType kUInt b l)) ∧
  String2TVMType "bool" = Fatal (UnknownType "bool") ∧
  String2TVMType "handle" = Ok (mkTVMType kHandle 64 1).
Proof.
  destruct String2TVMType_classifies_by_prefix
    as (Hu & _ & _ & _ & Hnone & Hdef & Habs).
  split; [| split].
  - apply Hu. now exists "8".
  - apply Hnone; intros [rest H]; discriminate H.
  - exact (proj2 (proj2 (proj2 (Hdef "" Habs)))).
Defined.

(* ===================================================================== *)
(** ** Round trip of type descriptors *)
(* ===================================================================== *)

(** A [kUInt] descriptor cannot be formatted: [TypeCode2Str] has no case
    for it. *)
Lemma TVMType2String_UInt_fatal (b l : Z) :
  TVMType2String (mkTVMType kUInt b l) = Fatal (UnknownTypeCode kUInt).
Proof. reflexivity. Qed.

(** A handle is formatted without width and lanes, and parsed back with
    64 bits and 1 lane. *)
Lemma Parse_Format_Handle (b l : Z) :
  Parse_Format (mkTVMType kHandle b l) = Ok (mkTVMType kHandle 64 1).
Proof. vm_compute. reflexivity. Qed.

(** C4, as stated, fails: the handle descriptor with 64 bits and 4 lanes is
    representable, is formatted as ["handle"], and parses back with 1
    lane. *)
Lemma Parse_Format_handle_lanes_counterexample :
  representable (mkTVMType kHandle 64 4) ∧
  TVMType2String (mkTVMType kHandle 64 4) = Ok "handle" ∧
  Parse_Format (mkTVMType kHandle 64 4) = Ok (mkTVMType kHandle 64 1) ∧
  Parse_Format (mkTVMType kHandle 64 4) <> Ok (mkTVMType kHandle 64 4).
Proof.
  split; [| split; [| split]].
  - unfold representable; cbn [code bits lanes].
    repeat split; try (repeat constructor).
  - reflexivity.
  - apply Parse_Format_Handle.
  - rewrite Parse_Format_Handle. intros H. discriminate H.
Qed.

(** C4, amended.  For every descriptor with lanes 1, 4 or 8 and bits 1, 8,
    16, 32 or 64 whose code is [kInt] or [kFloat], and for the [kHandle]
    descriptor with 64 bits and 1 lane, parsing the formatted text gives
    the descriptor back; [{kFloat, 32, 4}] is formatted as ["float32x4"],
    which parses to the same descriptor. *)
Theorem Parse_Format_roundtrip :
  (∀ d, representable d →
        code d = kInt ∨ code d = kFloat ∨ (code d = kHandle ∧ lanes d = 1) →
        Parse_Format d = Ok d) ∧
  TVMType2String (mkTVMType kFloat 32 4) = Ok "float32x4" ∧
  String2TVMType "float32x4" = Ok (mkTVMType kFloat 32 4).
Proof.
  split; [| split; [reflexivity | vm_compute; reflexivity]].
  intros [c b l] (Hl & Hb & _ & Hh) Hc; cbn [code bits lanes] in *.
  assert (0 <= b < 256).
  { rewrite !elem_of_cons, elem_of_nil in Hb. lia. }
  assert (0 <= l < 65536).
  { rewrite !elem_of_cons, elem_of_nil in Hl. lia. }
  destruct Hc as [-> | [-> | [-> ->]]].
  - apply Parse_Format_Int_Float; auto.
  - apply Parse_Format_Int_Float; auto.
  - rewrite Parse_Format_Handle, Hh; reflexivity.
Qed.

Lemma Parse_Format_roundtrip_witness :
  Parse_Format (mkTVMType kInt 8 4) = Ok (mkTVMType kInt 8 4).
Proof.
  apply (proj1 Parse_Format_roundtrip (mkTVMType kInt 8 4)).
  - unfold representable; cbn [code bits lanes].
    repeat split; try (repeat constructor). intros H; discriminate H.
  - left; reflexivity.
Defined.

(* ===================================================================== *)
(** ** Conversions of a tagged integer *)
(* ===================================================================== *)

Lemma wrap_int_32_id (v : Z) : INT_MIN <= v <= INT_MAX → wrap_int 32 v = v.
Proof.
  unfold INT_MIN, INT_MAX, wrap_int. intros H.
  rewrite Z.mod_small; lia.
Qed.

(** Where [operator int] does what a range check promises: above
    [INT_MAX] it fails, and between [INT_MIN] and [INT_MAX] it returns the
    stored value. *)
Lemma to_int_above (v : Z) :
  INT_MAX < v →
  TVMPODValue.to_int (mkPOD (v_int64 v) kInt) = Fatal (CheckFailed "").
Proof.
  intros H. unfold TVMPODValue.to_int; cbn.
  destruct (Z.leb_spec v INT_MAX); [lia | reflexivity].
Qed.

Lemma to_int_in_range (v : Z) :
  INT_MIN <= v <= INT_MAX →
  TVMPODValue.to_int (mkPOD (v_int64 v) kInt) = Ok v.
Proof.
  intros H. unfold TVMPODValue.to_int; cbn.
  destruct (Z.leb_spec v INT_MAX); [| lia].
  now rewrite wrap_int_32_id.
Qed.

(** Below [INT_MIN] there is no check: the conversion succeeds with the
    stored value cut to 32 bits. *)
Lemma to_int_below (v : Z) :
  v < INT_MIN →
  TVMPODValue.to_int (mkPOD (v_int64 v) kInt) = Ok (wrap_int 32 v)
  ∧ wrap_int 32 v <> v.
Proof.
  intros H. unfold TVMPODValue.to_int; cbn.
  destruct (Z.leb_spec v INT_MAX); [| unfold INT_MIN, INT_MAX in *; lia].
  split; [reflexivity |].
  unfold wrap_int, INT_MIN in *.
  pose proof (Z.mod_pos_bound (v + 2 ^ (32 - 1)) (2 ^ 32)). lia.
Qed.

(** C3, where the code departs from it: the stored value [INT_MIN - 1] is
    outside the range of [int], yet [operator int] does not fail; it
    returns [INT_MAX]. *)
Theorem to_int_below_INT_MIN_not_checked :
  in_int64 (INT_MIN - 1) ∧ ¬ (INT_MIN <= INT_MIN - 1 <= INT_MAX) ∧
  TVMPODValue.to_int (mkPOD (v_int64 (INT_MIN - 1)) kInt) = Ok INT_MAX.
Proof.
  split; [| split].
  - unfold in_int64, INT64_MIN, INT64_MAX, INT_MIN. lia.
  - unfold INT_MIN, INT_MAX. lia.
  - reflexivity.
Qed.

(** C10. [operator uint64_t] checks the type code only: for a stored
    [int64_t] value [v] under [kInt] it returns [v] modulo 2^64, which for a
    negative [v] is [v + 2^64], above [INT64_MAX]. *)
Theorem to_uint64_no_sign_check (v : Z) :
  in_int64 v →
  TVMPODValue.to_uint64 (mkPOD (v_int64 v) kInt) = Ok (v mod 2 ^ 64) ∧
  (v < 0 → v mod 2 ^ 64 = v + 2 ^ 64 ∧ INT64_MAX < v mod 2 ^ 64) ∧
  (0 <= v → v mod 2 ^ 64 = v) ∧
  (∀ c val, c <> kInt → is_fatal (TVMPODValue.to_uint64 (mkPOD val c))).
Proof.
  unfold in_int64, INT64_MIN, INT64_MAX. intros Hv.
  split; [reflexivity |]. split; [| split].
  - intros Hneg.
    assert (v mod 2 ^ 64 = v + 2 ^ 64) as ->; [| lia].
    symmetry. apply (Z.mod_unique _ _ (-1)); lia.
  - intros Hpos. apply Z.mod_small. lia.
  - intros c val Hc. destruct c; try congruence; exact I.
Qed.

Lemma to_uint64_no_sign_check_witness :
  TVMPODValue.to_uint64 (mkPOD (v_int64 (-1)) kInt)
  = Ok 18446744073709551615.
Proof.
  refine (proj1 (to_uint64_no_sign_check (-1) _)).
  unfold in_int64, INT64_MIN, INT64_MAX. lia.
Defined.

(* ===================================================================== *)
(** ** The heap *)
(* ===================================================================== *)

Lemma cell_fresh (n : nat) : cell (Z.of_nat n + 1) = n.
Proof. unfold cell. lia. Qed.

Lemma deref_fresh_before (h : Heap) :
  deref h (Z.of_nat (length h) + 1) = None.
Proof.
  unfold deref. destruct (Z.leb_spec (Z.of_nat (length h) + 1) 0); [lia |].
  rewrite cell_fresh, lookup_ge_None_2; [reflexivity | lia].
Qed.

Lemma deref_new (h : Heap) (v : Object) :
  deref (h ++ [Some v])%list (Z.of_nat (length h) + 1) = Some v.
Proof.
  unfold deref. destruct (Z.leb_spec (Z.of_nat (length h) + 1) 0); [lia |].
  rewrite cell_fresh.
  rewrite lookup_app_r by lia. now rewrite Nat.sub_diag.
Qed.

Lemma deref_live_bound (h : Heap) (p : Z) (o : Object) :
  deref h p = Some o → 0 < p ∧ (cell p < length h)%nat.
Proof.
  unfold deref. destruct (Z.leb_spec p 0); [discriminate |].
  intros Hj. split; [lia |].
  destruct (h !! cell p) eqn:E; [| discriminate].
  now apply lookup_lt_Some in E.
Qed.

Lemma deref_released (h : Heap) (p : Z) :
  deref (<[cell p := None]> h) p = None.
Proof.
  unfold deref. destruct (Z.leb_spec p 0); [reflexivity |].
  destruct (decide (cell p < length h)%nat).
  - now rewrite list_lookup_insert_eq.
  - rewrite list_insert_ge by lia.
    rewrite lookup_ge_None_2; [reflexivity | lia].
Qed.

Lemma deref_stored (h : Heap) (p : Z) (o v : Object) :
  deref h p = Some o → deref (<[cell p := Some v]> h) p = Some v.
Proof.
  intros H. destruct (deref_live_bound _ _ _ H) as [Hp Hc].
  unfold deref. destruct (Z.leb_spec p 0); [lia |].
  now rewrite list_lookup_insert_eq.
Qed.

Lemma deref_other (h : Heap) (p q : Z) (x : option Object) :
  0 < p → 0 < q → p <> q → deref (<[cell p := x]> h) q = deref h q.
Proof.
  intros Hp Hq Hne. unfold deref.
  destruct (Z.leb_spec q 0); [reflexivity |].
  rewrite list_lookup_insert_ne; [reflexivity | unfold cell; lia].
Qed.

Lemma delete_live (T : Class) (h : Heap) (p : Z) (o : Object) :
  deref h p = Some o → class_of o = T →
  delete T h p = Ok (<[cell p := None]> h).
Proof.
  intros H HT. destruct (deref_live_bound _ _ _ H) as [Hp _].
  unfold delete. destruct (decide (p = 0)); [lia |].
  rewrite H. now destruct (decide (class_of o = T)).
Qed.

Lemma delete_released (T : Class) (h : Heap) (p : Z) :
  p <> 0 → deref h p = None → delete T h p = Undefined (BadDelete p).
Proof.
  intros Hp H. unfold delete. destruct (decide (p = 0)); [lia |].
  now rewrite H.
Qed.

(** [Clear] on a slot in order: a box, if the slot has one, is released;
    the type code ends as [kNull]. *)
Lemma Clear_slot_ok (h : Heap) (self : TVMRetValue) :
  slot_ok h self →
  ∃ h1, RetValue.Clear h self = Ok (h1, set_type_code_ kNull self) ∧
        (box_class (type_code_ self) = None → h1 = h) ∧
        (∀ p, box_class (type_code_ self) <> None →
              value_ self = v_handle p → h1 = <[cell p := None]> h) ∧
        length h1 = length h.
Proof.
  destruct self as [val c]. unfold slot_ok, RetValue.Clear.
  cbn [type_code_ value_].
  destruct c; cbn [box_class];
    try (intros _; eexists; split; [reflexivity |];
         split; [reflexivity |]; split; [congruence | reflexivity]).
  all: intros (p & o & -> & Hp & Hlive & Hclass).
  all: cbn; unfold mbind, outcome_bind; cbn.
  all: rewrite (delete_live _ _ _ _ Hlive Hclass).
  all: eexists; split; [reflexivity |].
  all: split; [discriminate |].
  all: split; [intros q _ [= <-]; reflexivity | apply length_insert].
Qed.

Lemma Clear_kNull (h : Heap) (self : TVMRetValue) :
  type_code_ self = kNull → RetValue.Clear h self = Ok (h, self).
Proof.
  intros H. unfold RetValue.Clear. now destruct (decide _).
Qed.

(* ===================================================================== *)
(** ** Moves of a return slot *)
(* ===================================================================== *)

Lemma assign_string_default (h : Heap) (s : string) :
  RetValue.assign_string h RetValue.default s
  = Ok ((h ++ [Some (ObjString s)])%list,
        mkPOD (v_handle (Z.of_nat (length h) + 1)) kStr).
Proof. reflexivity. Qed.

(** The move assignment does what C1 says: the destination takes the
    source's value and type code, the source ends as [kNull]. *)
Lemma move_assign_resets_source (h : Heap) (self other : TVMRetValue) :
  slot_ok h self →
  ∃ h1, RetValue.move_assign h self other
        = Ok (h1, mkPOD (value_ other) (type_code_ other),
              set_type_code_ kNull other).
Proof.
  intros Hok. destruct (Clear_slot_ok h self Hok) as (h1 & HC & _).
  exists h1. unfold RetValue.move_assign. now rewrite HC.
Qed.

Lemma destroy_kNull (h : Heap) (val : TVMValue) :
  RetValue.destroy h (mkPOD val kNull) = Ok h.
Proof. reflexivity. Qed.

Lemma destroy_string_box (h : Heap) (p : Z) (s : string) :
  deref h p = Some (ObjString s) →
  RetValue.destroy h (mkPOD (v_handle p) kStr) = Ok (<[cell p := None]> h).
Proof.
  intros H. unfold RetValue.destroy, RetValue.Clear.
  cbn [type_code_ value_ read_v_handle]. unfold mbind, outcome_bind.
  destruct (decide (kStr = kNull)) as [E | _]; [discriminate E |].
  now rewrite (delete_live CString h p (ObjString s)).
Qed.

Lemma destroy_string_released (h : Heap) (p : Z) :
  p <> 0 → deref h p = None →
  RetValue.destroy h (mkPOD (v_handle p) kStr) = Undefined (BadDelete p).
Proof.
  intros Hp H. unfold RetValue.destroy, RetValue.Clear.
  cbn [type_code_ value_ read_v_handle]. unfold mbind, outcome_bind.
  destruct (decide (kStr = kNull)) as [E | _]; [discriminate E |].
  now rewrite delete_released.
Qed.

Lemma release_new (h : Heap) (v : Object) :
  <[cell (Z.of_nat (length h) + 1) := None]> (h ++ [Some v])%list
  = (h ++ [None])%list.
Proof.
  rewrite cell_fresh, insert_app_r_alt by lia. now rewrite Nat.sub_diag.
Qed.

(** With the move assignment the box is released once. *)
Lemma move_assign_then_destroy_once (h : Heap) (s : string) :
  move_assign_then_destroy h s = Ok (h ++ [None])%list.
Proof.
  unfold move_assign_then_destroy. rewrite assign_string_default.
  unfold mbind, outcome_bind.
  change (RetValue.move_assign ?h RetValue.default ?o)
    with (Ok (h, mkPOD (value_ o) (type_code_ o), set_type_code_ kNull o)).
  cbv beta iota. unfold set_type_code_. cbn [value_ type_code_].
  rewrite destroy_kNull.
  rewrite (destroy_string_box _ _ s) by apply deref_new.
  now rewrite release_new.
Qed.

(** The move constructor copies value and type code and leaves the source
    as it was. *)
Lemma move_ctor_source_kept (other : TVMRetValue) :
  RetValue.move_ctor other = (other, other).
Proof. now destruct other. Qed.

(** C1, where the code departs from it: after a string is assigned to a
    slot and a second slot is move-constructed from it, the source still
    has the type code [kStr] and the pointer to the box; destroying the
    moved-from slot releases the box, and destroying the new slot releases
    the same box again. *)
Theorem move_ctor_double_release (h : Heap) (s : string) :
  RetValue.assign_string h RetValue.default s
    = Ok ((h ++ [Some (ObjString s)])%list,
          mkPOD (v_handle (Z.of_nat (length h) + 1)) kStr) ∧
  RetValue.move_ctor (mkPOD (v_handle (Z.of_nat (length h) + 1)) kStr)
    = (mkPOD (v_handle (Z.of_nat (length h) + 1)) kStr,
       mkPOD (v_handle (Z.of_nat (length h) + 1)) kStr) ∧
  RetValue.destroy (h ++ [Some (ObjString s)])%list
      (mkPOD (v_handle (Z.of_nat (length h) + 1)) kStr)
    = Ok (h ++ [None])%list ∧
  RetValue.destroy (h ++ [None])%list
      (mkPOD (v_handle (Z.of_nat (length h) + 1)) kStr)
    = Undefined (BadDelete (Z.of_nat (length h) + 1)) ∧
  move_construct_then_destroy h s
    = Undefined (BadDelete (Z.of_nat (length h) + 1)).
Proof.
  assert (Hd1 : RetValue.destroy (h ++ [Some (ObjString s)])%list
                  (mkPOD (v_handle (Z.of_nat (length h) + 1)) kStr)
                = Ok (h ++ [None])%list).
  { rewrite (destroy_string_box _ _ s) by apply deref_new.
    now rewrite release_new. }
  assert (Hd2 : RetValue.destroy (h ++ [None])%list
                  (mkPOD (v_handle (Z.of_nat (length h) + 1)) kStr)
                = Undefined (BadDelete (Z.of_nat (length h) + 1))).
  { apply destroy_string_released; [lia |].
    rewrite <- (release_new h (ObjString s)). apply deref_released. }
  repeat split; try assumption.
  unfold move_construct_then_destroy.
  rewrite assign_string_default. unfold mbind, outcome_bind.
  cbv beta iota. rewrite move_ctor_source_kept.
  now rewrite Hd1, Hd2.
Qed.

(* ===================================================================== *)
(** ** Copies into a return slot *)
(* ===================================================================== *)

(** C2, where the code departs from it: [Assign] converts a source with
    type code [kModuleHandle] to a [PackedFunc], and that conversion checks
    for [kFuncHandle].  Copy construction, copy assignment and assignment
    from an argument view all fail, whatever the destination and the
    heap. *)
Theorem Assign_ModuleHandle_fails
    (T : Source) (h : Heap) (self : TVMRetValue) (val : TVMValue) :
  RetValue.Assign T h self (mkPOD val kModuleHandle)
    = Fatal (CheckFailed " expected FunctionHandle but get ModuleHandle") ∧
  RetValue.copy_ctor h (mkPOD val kModuleHandle)
    = Fatal (CheckFailed " expected FunctionHandle but get ModuleHandle") ∧
  RetValue.copy_assign h self (mkPOD val kModuleHandle)
    = Fatal (CheckFailed " expected FunctionHandle but get ModuleHandle") ∧
  RetValue.assign_ArgValue h self (mkPOD val kModuleHandle)
    = Fatal (CheckFailed " expected FunctionHandle but get ModuleHandle").
Proof.
  repeat split; try (destruct T); reflexivity.
Qed.

(** The [kFuncHandle] half of C2 holds for a copy construction: a new box
    with a copy of the [PackedFunc]. *)
Lemma copy_ctor_FuncHandle (h : Heap) (p : Z) (f : PackedFunc) :
  deref h p = Some (ObjPackedFunc f) →
  RetValue.copy_ctor h (mkPOD (v_handle p) kFuncHandle)
  = Ok ((h ++ [Some (ObjPackedFunc f)])%list,
        mkPOD (v_handle (Z.of_nat (length h) + 1)) kFuncHandle).
Proof.
  intros H. unfold RetValue.copy_ctor, RetValue.Assign. cbn.
  unfold RetValue.to_PackedFunc, deref_ptr, load. cbn.
  unfold mbind, outcome_bind. cbn. now rewrite H.
Qed.

(* ===================================================================== *)
(** ** Transfer to the C host *)
(* ===================================================================== *)

(** C6. [MoveToCHost] fails when the type code is [kStr].  Under every
    other type code it writes the value and the type code out and leaves
    the slot with [kNull]; after that [Clear] and the destructor change
    nothing on any heap, and a second [MoveToCHost] writes out [kNull]. *)
Theorem MoveToCHost_transfers (self : TVMRetValue) :
  (type_code_ self = kStr →
     RetValue.MoveToCHost self = Fatal (CheckFailed "")) ∧
  (type_code_ self <> kStr →
     let self' := set_type_code_ kNull self in
     RetValue.MoveToCHost self = Ok (self', value_ self, type_code_ self) ∧
     type_code_ self' = kNull ∧
     (∀ h, RetValue.Clear h self' = Ok (h, self')) ∧
     (∀ h, RetValue.destroy h self' = Ok h) ∧
     RetValue.MoveToCHost self' = Ok (self', value_ self, kNull)).
Proof.
  destruct self as [val c]. cbn [type_code_ value_]. split.
  - intros ->. reflexivity.
  - intros Hc. unfold RetValue.MoveToCHost. cbn [type_code_ value_].
    destruct (decide (c <> kStr)) as [_ | Hn]; [| tauto].
    repeat split.
Qed.

Lemma MoveToCHost_transfers_witness :
  RetValue.MoveToCHost (mkPOD (v_handle 1) kFuncHandle)
    = Ok (mkPOD (v_handle 1) kNull, v_handle 1, kFuncHandle) ∧
  RetValue.destroy [Some (ObjPackedFunc (mkPackedFunc None))]
    (mkPOD (v_handle 1) kNull)
    = Ok [Some (ObjPackedFunc (mkPackedFunc None))] ∧
  RetValue.MoveToCHost (mkPOD (v_handle 1) kStr) = Fatal (CheckFailed "").
Proof.
  destruct (MoveToCHost_transfers (mkPOD (v_handle 1) kFuncHandle))
    as [_ Hmove].
  destruct (Hmove ltac:(discriminate)) as (H1 & _ & _ & H2 & _).
  split; [exact H1 |]. split; [apply H2 |].
  apply (proj1 (MoveToCHost_transfers (mkPOD (v_handle 1) kStr))).
  reflexivity.
Defined.

(* ===================================================================== *)
(** ** Assignment of a complex value *)
(* ===================================================================== *)

(** C8. [SwitchToClass], through which a string, a [PackedFunc] or a
    [Module] is assigned.  When the slot already has the incoming type
    code, the slot (and so its pointer) stays as it is, no cell is added to
    the heap, and the box it points to holds the new payload.  Otherwise
    the slot is cleared, which releases its box if it has one, a new box
    with the payload is allocated at an address that was not in use, and
    the slot gets that pointer and the incoming type code. *)
Theorem SwitchToClass_reuses_or_replaces
    (h : Heap) (self : TVMRetValue) (type_code : TypeCode) (v : Object) :
  slot_ok h self →
  box_class type_code = Some (class_of v) →
  (type_code_ self = type_code →
     ∃ p, value_ self = v_handle p ∧
          RetValue.SwitchToClass h self type_code v
            = Ok (<[cell p := Some v]> h, self) ∧
          deref (<[cell p := Some v]> h) p = Some v ∧
          (∀ q, 0 < q → q <> p →
                deref (<[cell p := Some v]> h) q = deref h q)) ∧
  (type_code_ self <> type_code →
     ∃ h1, RetValue.Clear h self = Ok (h1, set_type_code_ kNull self) ∧
           (box_class (type_code_ self) = None → h1 = h) ∧
           (∀ p, box_class (type_code_ self) <> None →
                 value_ self = v_handle p →
                 h1 = <[cell p := None]> h ∧ deref h1 p = None) ∧
           let p' := Z.of_nat (length h) + 1 in
           RetValue.SwitchToClass h self type_code v
             = Ok ((h1 ++ [Some v])%list, mkPOD (v_handle p') type_code) ∧
           deref h p' = None ∧
           deref (h1 ++ [Some v])%list p' = Some v).
Proof.
  intros Hok Hclass. split.
  - intros <-. unfold slot_ok in Hok. rewrite Hclass in Hok.
    destruct Hok as (p & o & Hval & Hp & Hlive & Ho).
    exists p. split; [assumption |].
    destruct (deref_live_bound _ _ _ Hlive) as [Hpos _].
    split; [| split].
    + unfold RetValue.SwitchToClass.
      destruct (decide _) as [Hn | _]; [congruence |].
      rewrite Hval. cbn [read_v_handle]. unfold store, load.
      unfold mbind, outcome_bind. rewrite Hlive.
      now destruct (decide (class_of o = class_of v)).
    + exact (deref_stored _ _ _ _ Hlive).
    + intros q Hq Hne. apply deref_other; auto.
  - intros Hne.
    destruct (Clear_slot_ok h self Hok) as (h1 & HC & Hpod & Hbox & Hlen).
    exists h1. split; [assumption |]. split; [assumption |].
    split.
    { intros p Hb Hv. specialize (Hbox p Hb Hv). split; [assumption |].
      rewrite Hbox. apply deref_released. }
    cbv zeta. split; [| split].
    + unfold RetValue.SwitchToClass.
      destruct (decide _) as [_ | Hn]; [| tauto].
      rewrite HC. unfold mbind, outcome_bind, new.
      now rewrite Hlen.
    + apply deref_fresh_before.
    + rewrite <- Hlen. apply deref_new.
Qed.

Lemma SwitchToClass_reuses_or_replaces_witness :
  RetValue.assign_string [Some (ObjString "a")] (mkPOD (v_handle 1) kStr) "b"
    = Ok ([Some (ObjString "b")], mkPOD (v_handle 1) kStr) ∧
  RetValue.assign_PackedFunc [Some (ObjString "a")] (mkPOD (v_handle 1) kStr)
      (mkPackedFunc (Some 7%N))
    = Ok ([None; Some (ObjPackedFunc (mkPackedFunc (Some 7%N)))],
          mkPOD (v_handle 2) kFuncHandle).
Proof.
  assert (Hok : slot_ok [Some (ObjString "a")] (mkPOD (v_handle 1) kStr)).
  { exists 1, (ObjString "a"). repeat split. discriminate. }
  split.
  - destruct (SwitchToClass_reuses_or_replaces
                [Some (ObjString "a")] (mkPOD (v_handle 1) kStr)
                kStr (ObjString "b") Hok eq_refl) as [Hsame _].
    destruct (Hsame eq_refl) as (p & Hp & Hrun & _).
    injection Hp as <-. exact Hrun.
  - destruct (SwitchToClass_reuses_or_replaces
                [Some (ObjString "a")] (mkPOD (v_handle 1) kStr)
                kFuncHandle (ObjPackedFunc (mkPackedFunc (Some 7%N)))
                Hok eq_refl) as [_ Hdiff].
    destruct (Hdiff ltac:(discriminate)) as (h1 & _ & _ & Hrel & Hrun & _).
    destruct (Hrel 1 ltac:(discriminate) eq_refl) as [-> _].
    exact Hrun.
Defined.

(* ===================================================================== *)
(** ** Indexing the argument list *)
(* ===================================================================== *)

Lemma write_array_below {A} (m : gmap Z A) (a b : Z) (l : list A) :
  b < a → write_array m a l !! b = m !! b.
Proof.
  revert a. induction l as [|x l IH]; intros a Hb; cbn [write_array];
    [reflexivity |].
  rewrite lookup_insert_ne by lia. apply IH. lia.
Qed.

Lemma write_array_at {A} (m : gmap Z A) (a : Z) (l : list A) :
  array_at (write_array m a l) a l.
Proof.
  revert a. induction l as [|x l IH]; intros a k y Hk;
    [now rewrite lookup_nil in Hk |].
  cbn [write_array]. destruct k as [|k].
  - cbn in Hk. injection Hk as ->.
    replace (a + Z.of_nat 0) with a by lia. apply lookup_insert_eq.
  - cbn in Hk. rewrite lookup_insert_ne by lia.
    replace (a + Z.of_nat (S k)) with (a + 1 + Z.of_nat k) by lia.
    now apply IH.
Qed.

Lemma array_at_lookup {A} (m : gmap Z A) (a i : Z) (l : list A) :
  array_at m a l → 0 <= i < Z.of_nat (length l) →
  ∃ x, l !! Z.to_nat i = Some x ∧ m !! (a + i) = Some x.
Proof.
  intros Harr Hi.
  destruct (lookup_lt_is_Some_2 l (Z.to_nat i)) as [x Hx]; [lia |].
  exists x. split; [assumption |].
  rewrite <- (Z2Nat.id i) at 1 by lia. now apply Harr.
Qed.

Lemma view_at_not_fatal (m : Memory) (self : TVMArgs) (i : Z) :
  ¬ is_fatal (Args.view_at m self i).
Proof.
  unfold Args.view_at, load_value, load_code, mbind, outcome_bind.
  destruct (value_cells m !! _); [| exact id].
  destruct (code_cells m !! _); exact id.
Qed.

(** C7. On an argument list with [n] arguments, [operator[]] with an index
    of [n] or more fails, and the message gives the count and the index;
    with an index from 0 to [n - 1] it returns the view made of
    [values[i]] and [type_codes[i]]. *)
Theorem at_bounds_checked
    (m : Memory) (self : TVMArgs)
    (vs : list TVMValue) (cs : list TypeCode) (i : Z) :
  array_at (value_cells m) (values self) vs →
  array_at (code_cells m) (type_codes self) cs →
  num_args self = Z.of_nat (length vs) →
  length cs = length vs →
  (num_args self <= i →
     Args.at_ m self i
     = Fatal (CheckFailed
                ("not enough argument passed, " ++ show_int (num_args self)
                 ++ " passed but request arg[" ++ show_int i ++ "]."))) ∧
  (0 <= i < num_args self →
     ∃ v c, vs !! Z.to_nat i = Some v ∧ cs !! Z.to_nat i = Some c ∧
            Args.at_ m self i = Ok (ArgValue.make v c)).
Proof.
  intros Hvs Hcs Hn Hlen. split.
  - intros Hi. unfold Args.at_.
    destruct (Z.ltb_spec i (num_args self)); [lia |].
    reflexivity.
  - intros Hi. unfold Args.at_.
    destruct (Z.ltb_spec i (num_args self)); [| lia].
    destruct (array_at_lookup _ _ i _ Hvs) as (v & Hv & Hmv); [lia |].
    destruct (array_at_lookup _ _ i _ Hcs) as (c & Hc & Hmc); [lia |].
    exists v, c. split; [assumption |]. split; [assumption |].
    unfold Args.view_at, load_value, load_code, mbind, outcome_bind.
    now rewrite Hmv, Hmc.
Qed.

Lemma at_bounds_checked_witness :
  Args.at_ two_args_memory (mkTVMArgs 100 200 2) 2
    = Fatal (CheckFailed
               "not enough argument passed, 2 passed but request arg[2].") ∧
  Args.at_ two_args_memory (mkTVMArgs 100 200 2) 1
    = Ok (ArgValue.make (v_float64 0) kFloat).
Proof.
  pose proof (at_bounds_checked two_args_memory (mkTVMArgs 100 200 2)
                [v_int64 10; v_float64 0] [kInt; kFloat]) as H.
  split.
  - destruct (H 2 (write_array_at _ _ _) (write_array_at _ _ _)
                eq_refl eq_refl) as [Hfail _].
    apply Hfail. cbn. lia.
  - destruct (H 1 (write_array_at _ _ _) (write_array_at _ _ _)
                eq_refl eq_refl) as [_ Hok].
    destruct Hok as (v & c & Hv & Hc & Hrun); [cbn; lia |].
    cbn in Hv, Hc. injection Hv as <-. injection Hc as <-. exact Hrun.
Defined.

(** C9. Only the upper bound is checked.  With a count that is not
    negative, a negative index passes [CHECK_LT(i, num_args)]: the result is
    the unchecked read of [values[i]] and [type_codes[i]], at addresses
    before the arrays, and is never a fatal failure; where those cells hold
    data, a view of that data is returned. *)
Theorem at_negative_index_unchecked (m : Memory) (self : TVMArgs) (i : Z) :
  i < 0 → 0 <= num_args self →
  Args.at_ m self i = Args.view_at m self i ∧
  ¬ is_fatal (Args.at_ m self i) ∧
  values self + i < values self ∧
  type_codes self + i < type_codes self ∧
  (∀ v c, value_cells m !! (values self + i) = Some v →
          code_cells m !! (type_codes self + i) = Some c →
          Args.at_ m self i = Ok (ArgValue.make v c)).
Proof.
  intros Hi Hn.
  assert (Hat : Args.at_ m self i = Args.view_at m self i).
  { unfold Args.at_. destruct (Z.ltb_spec i (num_args self)); [easy | lia]. }
  split; [assumption |]. split.
  { rewrite Hat. apply view_at_not_fatal. }
  split; [lia |]. split; [lia |].
  intros v c Hv Hc. rewrite Hat.
  unfold Args.view_at, load_value, load_code, mbind, outcome_bind.
  now rewrite Hv, Hc.
Qed.

Lemma at_negative_index_unchecked_witness :
  Args.at_ one_arg_memory (mkTVMArgs 100 200 1) (-1)
    = Ok (ArgValue.make (v_handle 4096) kHandle).
Proof.
  destruct (at_negative_index_unchecked one_arg_memory
              (mkTVMArgs 100 200 1) (-1))
    as (_ & _ & _ & _ & H); [lia | cbn; lia |].
  apply H; apply lookup_insert_eq.
Defined.

(* ===================================================================== *)
(** ** Further properties of the descriptor text *)
(* ===================================================================== *)

(** X1. [TypeCode2Str] names every type code but [kUInt], for which it
    fails, and no two codes share a name. *)
Theorem TypeCode2Str_names_distinct :
  (∀ c, c <> kUInt → is_ok (TypeCode2Str c)) ∧
  TypeCode2Str kUInt = Fatal (UnknownTypeCode kUInt) ∧
  (∀ c1 c2 name, TypeCode2Str c1 = Ok name → TypeCode2Str c2 = Ok name →
                 c1 = c2).
Proof.
  split; [| split].
  - intros c Hc. destruct c; try exact I. congruence.
  - reflexivity.
  - intros c1 c2 name H1 H2.
    destruct c1; cbn in H1; try discriminate H1;
      injection H1 as <-;
      destruct c2; cbn in H2; try discriminate H2; reflexivity.
Qed.

Lemma TypeCode2Str_names_distinct_witness :
  is_ok (TypeCode2Str kModuleHandle) ∧
  (TypeCode2Str kStr = Ok "str" → TypeCode2Str kStr = Ok "str" → kStr = kStr).
Proof.
  destruct TypeCode2Str_names_distinct as (Hok & _ & Hinj).
  split; [apply Hok; discriminate | apply Hinj].
Defined.

(** X2. Formatting then parsing gives the descriptor back for the codes
    [kInt] and [kFloat] at every width the 8-bit field and every lane count
    the 16-bit field can hold. *)
Theorem Parse_Format_all_widths (d : TVMType) :
  code d = kInt ∨ code d = kFloat →
  0 <= bits d < 256 → 0 <= lanes d < 65536 →
  Parse_Format d = Ok d.
Proof.
  destruct d as [c b l]; cbn [code bits lanes].
  intros Hc Hb Hl. now apply Parse_Format_Int_Float.
Qed.

Lemma Parse_Format_all_widths_witness :
  Parse_Format (mkTVMType kFloat 255 65535) = Ok (mkTVMType kFloat 255 65535).
Proof.
  apply (Parse_Format_all_widths (mkTVMType kFloat 255 65535)); cbn.
  - right; reflexivity.
  - lia.
  - lia.
Defined.

Lemma String2TVMType_after_prefix (p : string) (c : TypeCode) (dflt : Z)
    (tail : string) :
  (p, c, dflt) ∈ type_prefixes →
  String2TVMType (p ++ tail)
  = let '(b, l) := sscanf_ux_u (until_nul tail) dflt 1 in
    Ok (mkTVMType c (wrap_uint 8 b) (wrap_uint 16 l)).
Proof.
  unfold type_prefixes. rewrite !elem_of_cons, elem_of_nil.
  intros [H | [H | [H | [H | []]]]]; injection H as -> -> ->.
  - apply String2TVMType_after_int.
  - apply String2TVMType_after_uint.
  - apply String2TVMType_after_float.
  - apply String2TVMType_after_handle.
Qed.

(** X3. The numbers of the text are cut to the fields that take them: after
    any of the four prefixes, the text of a width [b] and a lane count [l]
    (each below 2^32) parses to the width [b mod 256] and the lane count
    [l mod 65536], with no failure. *)
Theorem String2TVMType_truncates
    (p : string) (c : TypeCode) (dflt b l : Z) :
  (p, c, dflt) ∈ type_prefixes →
  0 <= b < 2 ^ 32 → 0 <= l < 2 ^ 32 →
  String2TVMType (p ++ show_int b ++ "x" ++ show_int l)
  = Ok (mkTVMType c (b mod 256) (l mod 65536)).
Proof.
  intros Hp Hb Hl.
  rewrite (String2TVMType_after_prefix p c dflt) by assumption.
  destruct (c_str_from_numeral b l) as [_ ->]; [lia | lia |].
  now rewrite sscanf_bits_lanes by lia.
Qed.

Lemma String2TVMType_truncates_witness :
  String2TVMType "uint300x65537" = Ok (mkTVMType kUInt 44 1).
Proof.
  apply (String2TVMType_truncates "uint" kUInt 32 300 65537).
  - unfold type_prefixes. rewrite !elem_of_cons. right; left; reflexivity.
  - lia.
  - lia.
Defined.

Lemma until_nul_suffix_ends (rest : string) :
  suffix_ends rest → suffix_ends (until_nul rest).
Proof.
  destruct rest as [|ch rest]; [exact id |].
  cbn [suffix_ends until_nul]. intros H.
  destruct (Ascii.eqb ch zero); [exact I | exact H].
Qed.

Lemma sscanf_bits_tail (b tb tl : Z) (rest : string) :
  0 <= b < 2 ^ 32 → suffix_ends rest →
  sscanf_ux_u (show_int b ++ rest) tb tl = (b, tl).
Proof.
  intros Hb Hrest. unfold sscanf_ux_u.
  rewrite scan_u_show; [| lia | destruct rest; [exact I | apply Hrest]].
  destruct rest as [|ch rest]; [reflexivity |].
  destruct Hrest as [_ Hx].
  destruct (Ascii.eqb_spec ch "x"); [contradiction |].
  destruct ch as [[] [] [] [] [] [] [] []]; try reflexivity.
  contradiction.
Qed.

Lemma sscanf_bits_x_tail (b tb tl : Z) (rest : string) :
  0 <= b < 2 ^ 32 → scan_u rest = None →
  sscanf_ux_u (show_int b ++ "x" ++ rest) tb tl = (b, tl).
Proof.
  intros Hb Hrest. unfold sscanf_ux_u.
  rewrite scan_u_show by (try lia; reflexivity).
  rewrite string_app_cons, string_app_nil. now rewrite Hrest.
Qed.

(** X4. What follows the width and is no lane count is ignored: after any
    of the four prefixes and a width [b] below 2^32, a rest that starts
    with neither a digit nor [x], or an [x] that no number follows, leaves
    the lane count at 1; the result is the width [b mod 256] with 1 lane,
    with no failure. *)
Theorem String2TVMType_ignores_tail
    (p : string) (c : TypeCode) (dflt b : Z) (rest : string) :
  (p, c, dflt) ∈ type_prefixes →
  0 <= b < 2 ^ 32 →
  (suffix_ends rest →
     String2TVMType (p ++ show_int b ++ rest)
     = Ok (mkTVMType c (b mod 256) 1)) ∧
  (numeral_absent rest →
     String2TVMType (p ++ show_int b ++ "x" ++ rest)
     = Ok (mkTVMType c (b mod 256) 1)).
Proof.
  intros Hp Hb. split; intros Hrest.
  - rewrite (String2TVMType_after_prefix p c dflt) by assumption.
    rewrite until_nul_show by lia.
    rewrite sscanf_bits_tail by (try lia; now apply until_nul_suffix_ends).
    reflexivity.
  - rewrite (String2TVMType_after_prefix p c dflt) by assumption.
    rewrite until_nul_show by lia.
    rewrite string_app_cons, string_app_nil. cbn [until_nul].
    change (Ascii.eqb "x" zero) with false. cbv iota.
    change (String "x" (until_nul rest)) with ("x" ++ until_nul rest).
    rewrite sscanf_bits_x_tail by (try lia; exact Hrest).
    reflexivity.
Qed.

Lemma String2TVMType_ignores_tail_witness :
  String2TVMType "float64 lanes" = Ok (mkTVMType kFloat 64 1) ∧
  String2TVMType "float64xyz" = Ok (mkTVMType kFloat 64 1).
Proof.
  assert (Hp : ("float", kFloat, 32) ∈ type_prefixes).
  { unfold type_prefixes. rewrite !elem_of_cons. right; right; left.
    reflexivity. }
  destruct (String2TVMType_ignores_tail "float" kFloat 32 64 " lanes" Hp)
    as [H1 _]; [lia |].
  destruct (String2TVMType_ignores_tail "float" kFloat 32 64 "yz" Hp)
    as [_ H2]; [lia |].
  split.
  - apply H1. split; [reflexivity | discriminate].
  - apply H2. reflexivity.
Defined.

(* ===================================================================== *)
(** ** Further properties of the conversions of a tagged value *)
(* ===================================================================== *)

(** X5. A failed type check reports both names, unless the code at hand is
    [kUInt]: then the report itself fails, in [TypeCode2Str].  Either way
    the check is fatal whenever the two codes differ, and passes when they
    are equal. *)
Theorem TVM_CHECK_TYPE_CODE_reports (CODE T : TypeCode) :
  T <> kUInt →
  TVM_CHECK_TYPE_CODE T T = Ok tt ∧
  (CODE <> T → CODE <> kUInt →
     ∃ expected actual,
       TypeCode2Str T = Ok expected ∧ TypeCode2Str CODE = Ok actual ∧
       TVM_CHECK_TYPE_CODE CODE T
       = Fatal (CheckFailed (" expected " ++ expected ++ " but get " ++ actual))) ∧
  (CODE <> T → CODE = kUInt →
     TVM_CHECK_TYPE_CODE CODE T = Fatal (UnknownTypeCode kUInt)).
Proof.
  intros HT. split; [| split].
  - unfold TVM_CHECK_TYPE_CODE. now destruct (decide (T = T)).
  - intros Hne Hu. unfold TVM_CHECK_TYPE_CODE.
    destruct (decide (CODE = T)); [contradiction |].
    destruct T; try congruence; destruct CODE; try congruence;
      do 2 eexists; (split; [reflexivity |]); (split; reflexivity).
  - intros Hne ->. unfold TVM_CHECK_TYPE_CODE.
    destruct (decide (kUInt = T)); [congruence |].
    destruct T; try congruence; reflexivity.
Qed.

Lemma TVM_CHECK_TYPE_CODE_reports_witness :
  TVM_CHECK_TYPE_CODE kUInt kInt = Fatal (UnknownTypeCode kUInt).
Proof.
  destruct (TVM_CHECK_TYPE_CODE_reports kUInt kInt ltac:(discriminate))
    as (_ & _ & H).
  apply H; [discriminate | reflexivity].
Defined.

Lemma TVM_CHECK_TYPE_CODE_mismatch (CODE T : TypeCode) :
  CODE <> T → is_fatal (x ← TVM_CHECK_TYPE_CODE CODE T; Ok x).
Proof.
  intros Hne. unfold TVM_CHECK_TYPE_CODE.
  destruct (decide (CODE = T)); [contradiction |].
  destruct T, CODE; try congruence; exact I.
Qed.

Lemma check_then_fatal {A} (CODE T : TypeCode) (k : unit → outcome A) :
  CODE <> T → is_fatal (TVM_CHECK_TYPE_CODE CODE T ≫= k).
Proof.
  intros Hne. pose proof (TVM_CHECK_TYPE_CODE_mismatch CODE T Hne) as H.
  unfold mbind, outcome_bind in *.
  destruct (TVM_CHECK_TYPE_CODE CODE T); [destruct H | exact I | destruct H].
Qed.

(** X6. The numeric conversions accept one type code each: a tagged value
    that is not [kInt] fails to convert to [int64_t], [int] and [bool], and
    one that is not [kFloat] fails to convert to [double]; under [kInt] the
    stored value comes back as it is for [int64_t] and as "not zero" for
    [bool], at every value. *)
Theorem numeric_conversions_check_tag (self : TVMPODValue_) (v : Z) :
  (type_code_ self <> kInt →
     is_fatal (TVMPODValue.to_int64 self) ∧
     is_fatal (TVMPODValue.to_int self) ∧
     is_fatal (TVMPODValue.to_bool self)) ∧
  (type_code_ self <> kFloat → is_fatal (TVMPODValue.to_double self)) ∧
  TVMPODValue.to_int64 (mkPOD (v_int64 v) kInt) = Ok v ∧
  TVMPODValue.to_bool (mkPOD (v_int64 v) kInt) = Ok (negb (v =? 0)) ∧
  TVMPODValue.to_double (mkPOD (v_float64 v) kFloat) = Ok v.
Proof.
  split; [| split; [| repeat split]].
  - intros H. repeat split; now apply check_then_fatal.
  - intros H. now apply check_then_fatal.
Qed.

Lemma numeric_conversions_check_tag_witness :
  is_fatal (TVMPODValue.to_bool (mkPOD (v_float64 0) kFloat)) ∧
  is_fatal (TVMPODValue.to_double (mkPOD (v_int64 1) kInt)).
Proof.
  split.
  - apply (numeric_conversions_check_tag (mkPOD (v_float64 0) kFloat) 0).
    discriminate.
  - apply (numeric_conversions_check_tag (mkPOD (v_int64 1) kInt) 0).
    discriminate.
Defined.

(** X7. The pointer conversions.  Under [kNull] both give [nullptr] without
    reading the value; under [kArrayHandle] both give the stored pointer;
    under [kHandle] the conversion to [void*] gives the stored pointer while
    the conversion to [TVMArray*] fails; under every other type code both
    fail. *)
Theorem pointer_conversions (val : TVMValue) (p : Z) (c : TypeCode) :
  TVMPODValue.to_voidp (mkPOD val kNull) = Ok 0 ∧
  TVMPODValue.to_TVMArray (mkPOD val kNull) = Ok 0 ∧
  TVMPODValue.to_voidp (mkPOD (v_handle p) kArrayHandle) = Ok p ∧
  TVMPODValue.to_TVMArray (mkPOD (v_handle p) kArrayHandle) = Ok p ∧
  TVMPODValue.to_voidp (mkPOD (v_handle p) kHandle) = Ok p ∧
  is_fatal (TVMPODValue.to_TVMArray (mkPOD (v_handle p) kHandle)) ∧
  (c <> kNull → c <> kArrayHandle → c <> kHandle →
     is_fatal (TVMPODValue.to_voidp (mkPOD val c)) ∧
     is_fatal (TVMPODValue.to_TVMArray (mkPOD val c))).
Proof.
  repeat split; try exact I.
  - destruct c; try congruence; exact I.
  - destruct c; try congruence; exact I.
Qed.

Lemma pointer_conversions_witness :
  is_fatal (TVMPODValue.to_voidp (mkPOD (v_handle 8) kFuncHandle)) ∧
  is_fatal (TVMPODValue.to_TVMArray (mkPOD (v_handle 8) kFuncHandle)).
Proof.
  apply (pointer_conversions (v_handle 8) 0 kFuncHandle); discriminate.
Defined.

(** X8. A type descriptor passed as text and read back as a descriptor is
    the same descriptor: for a [kInt] or [kFloat] descriptor [d] (any
    width, any lane count), the view of [d] under [kTVMType] converts to a
    string, and a [kStr] view of a character array with that text converts
    to [d].  A [kTVMType] view converts to the descriptor itself. *)
Theorem ArgValue_type_text_roundtrip
    (h : Heap) (d : TVMType) (p : Z) (s : string) :
  code d = kInt ∨ code d = kFloat →
  0 <= bits d < 256 → 0 <= lanes d < 65536 →
  ArgValue.to_TVMType h (mkPOD (v_type d) kTVMType) = Ok d ∧
  (ArgValue.to_string h (mkPOD (v_type d) kTVMType) = Ok s →
   deref h p = Some (ObjChars s) →
   ArgValue.to_TVMType h (mkPOD (v_str p) kStr) = Ok d) ∧
  is_ok (ArgValue.to_string h (mkPOD (v_type d) kTVMType)).
Proof.
  intros Hc Hb Hl.
  pose proof (Parse_Format_Int_Float (code d) (bits d) (lanes d) Hc Hb Hl)
    as Hrt.
  destruct d as [c b l]; cbn [code bits lanes] in *.
  unfold Parse_Format in Hrt.
  assert (Hs : ArgValue.to_string h (mkPOD (v_type (mkTVMType c b l)) kTVMType)
               = TVMType2String (mkTVMType c b l)) by reflexivity.
  split; [reflexivity |]. split.
  - rewrite Hs. intros Hfmt Hlive. rewrite Hfmt in Hrt.
    unfold ArgValue.to_TVMType, ArgValue.to_string. cbn.
    unfold load. rewrite Hlive. cbn. exact Hrt.
  - rewrite Hs. destruct (TVMType2String _); [exact I | | ]; discriminate Hrt.
Qed.

Lemma ArgValue_type_text_roundtrip_witness :
  ArgValue.to_TVMType [Some (ObjChars "float32x4")] (mkPOD (v_str 1) kStr)
  = Ok (mkTVMType kFloat 32 4).
Proof.
  destruct (ArgValue_type_text_roundtrip [Some (ObjChars "float32x4")]
              (mkTVMType kFloat 32 4) 1 "float32x4")
    as (_ & H & _); cbn; [right; reflexivity | lia | lia |].
  apply H; reflexivity.
Defined.

(* ===================================================================== *)
(** ** Counting live boxes *)
(* ===================================================================== *)

Lemma live_boxes_app (h1 h2 : Heap) :
  live_boxes (h1 ++ h2)%list = (live_boxes h1 + live_boxes h2)%nat.
Proof. unfold live_boxes. now rewrite omap_app, List.length_app. Qed.

Lemma live_boxes_insert (h : Heap) (i : nat) (old : option Object)
    (x : option Object) :
  h !! i = Some old →
  (live_boxes (<[i := x]> h) + live_boxes [old]
   = live_boxes h + live_boxes [x])%nat.
Proof.
  intros Hi. pose proof (lookup_lt_Some _ _ _ Hi) as Hlt.
  rewrite insert_take_drop by assumption.
  rewrite <- (take_drop_middle h i old Hi) at 3.
  change (?a :: ?l) with ([a] ++ l)%list.
  rewrite !live_boxes_app. lia.
Qed.

Lemma deref_lookup (h : Heap) (p : Z) (o : Object) :
  deref h p = Some o → h !! cell p = Some (Some o).
Proof.
  unfold deref. destruct (p <=? 0); [discriminate |].
  destruct (h !! cell p) as [[x|]|]; cbn; congruence.
Qed.

Lemma live_boxes_released (h : Heap) (p : Z) (o : Object) :
  deref h p = Some o →
  (live_boxes (<[cell p := None]> h) + 1 = live_boxes h)%nat.
Proof.
  intros H. apply deref_lookup in H.
  pose proof (live_boxes_insert h (cell p) (Some o) None H) as E.
  cbn in E. lia.
Qed.

Lemma live_boxes_stored (h : Heap) (p : Z) (o v : Object) :
  deref h p = Some o →
  live_boxes (<[cell p := Some v]> h) = live_boxes h.
Proof.
  intros H. apply deref_lookup in H.
  pose proof (live_boxes_insert h (cell p) (Some o) (Some v) H) as E.
  cbn in E. lia.
Qed.

Lemma has_box_set_POD (c : TypeCode) (self : TVMRetValue) :
  box_class c = None → has_box (set_type_code_ c self) = 0%nat.
Proof. intros H. unfold has_box. cbn. now rewrite H. Qed.

(** [Clear] with the count of live boxes. *)
Lemma Clear_counts (h : Heap) (self : TVMRetValue) :
  slot_ok h self →
  ∃ h1, RetValue.Clear h self = Ok (h1, set_type_code_ kNull self) ∧
        length h1 = length h ∧
        (live_boxes h1 + has_box self = live_boxes h)%nat ∧
        (∀ q o, deref h q = Some o →
                (has_box self = 1%nat → value_ self <> v_handle q) →
                deref h1 q = Some o).
Proof.
  intros Hok. destruct (Clear_slot_ok h self Hok) as (h1 & HC & Hpod & Hbox & Hlen).
  exists h1. split; [assumption |]. split; [assumption |].
  unfold has_box, slot_ok in *.
  destruct (box_class (type_code_ self)) as [T|].
  - destruct Hok as (p & o & Hval & Hp & Hlive & Hclass).
    rewrite (Hbox p ltac:(discriminate) Hval). split.
    + apply (live_boxes_released h p o Hlive).
    + intros q o' Hq Hne.
      destruct (deref_live_bound _ _ _ Hlive) as [Hp0 _].
      destruct (deref_live_bound _ _ _ Hq) as [Hq0 _].
      rewrite deref_other; [assumption | lia | lia |].
      intros ->. apply Hne; [reflexivity | assumption].
  - rewrite (Hpod eq_refl). split; [lia | auto].
Qed.

Lemma SwitchToPOD_counts (h : Heap) (self : TVMRetValue) (c : TypeCode) :
  slot_ok h self → box_class c = None →
  ∃ h1, RetValue.SwitchToPOD h self c = Ok (h1, set_type_code_ c self) ∧
        (live_boxes h1 + has_box self = live_boxes h)%nat.
Proof.
  intros Hok Hc. unfold RetValue.SwitchToPOD.
  destruct (decide (type_code_ self <> c)) as [Hne | He].
  - destruct (Clear_counts h self Hok) as (h1 & HC & _ & Hlive & _).
    exists h1. rewrite HC. split; [reflexivity | assumption].
  - exists h. assert (type_code_ self = c) as <-.
    { destruct (decide (type_code_ self = c)); [assumption | contradiction]. }
    split; [now destruct self |].
    unfold has_box. rewrite Hc. lia.
Qed.

Lemma SwitchToClass_counts (h : Heap) (self : TVMRetValue)
    (c : TypeCode) (v : Object) :
  slot_ok h self → box_class c = Some (class_of v) →
  ∃ h1 p, RetValue.SwitchToClass h self c v = Ok (h1, mkPOD (v_handle p) c) ∧
          p <> 0 ∧ deref h1 p = Some v ∧
          (live_boxes h1 + has_box self = live_boxes h + 1)%nat.
Proof.
  intros Hok Hc. unfold RetValue.SwitchToClass.
  destruct (decide (type_code_ self <> c)) as [Hne | He].
  - destruct (Clear_counts h self Hok) as (h1 & HC & Hlen & Hlive & _).
    rewrite HC. unfold mbind, outcome_bind, new. cbn.
    eexists _, _. split; [reflexivity |].
    split; [lia |]. split; [apply deref_new |].
    rewrite live_boxes_app. cbn. lia.
  - assert (type_code_ self = c) as <-.
    { destruct (decide (type_code_ self = c)); [assumption | contradiction]. }
    unfold slot_ok, has_box in *. rewrite Hc in *.
    destruct Hok as (p & o & Hval & Hp & Hlive & Hclass).
    exists (<[cell p := Some v]> h), p.
    rewrite Hval. cbn [read_v_handle]. unfold store, load.
    unfold mbind, outcome_bind. rewrite Hlive.
    destruct (decide (class_of o = class_of v)); [| contradiction].
    split; [destruct self; cbn in *; now subst |].
    split; [assumption |].
    split; [exact (deref_stored _ _ _ _ Hlive) |].
    rewrite (live_boxes_stored h p o v Hlive). lia.
Qed.

Lemma slot_ok_box (h : Heap) (p : Z) (c : TypeCode) (v : Object) :
  p <> 0 → deref h p = Some v → box_class c = Some (class_of v) →
  slot_ok h (mkPOD (v_handle p) c).
Proof.
  intros Hp Hv Hc. unfold slot_ok. cbn. rewrite Hc. now exists p, v.
Qed.

Lemma slot_ok_POD (h : Heap) (self : TVMRetValue) :
  box_class (type_code_ self) = None → slot_ok h self.
Proof. intros H. unfold slot_ok. now rewrite H. Qed.

Lemma destroy_counts (h : Heap) (self : TVMRetValue) :
  slot_ok h self →
  ∃ h1, RetValue.destroy h self = Ok h1 ∧
        (live_boxes h1 + has_box self = live_boxes h)%nat.
Proof.
  intros Hok. destruct (Clear_counts h self Hok) as (h1 & HC & _ & Hlive & _).
  exists h1. unfold RetValue.destroy. rewrite HC. now split.
Qed.

(* ===================================================================== *)
(** ** Further properties of the return slot *)
(* ===================================================================== *)

(** X9. [Clear] on a slot in order succeeds, leaves the type code [kNull],
    takes exactly the slot's own box (if it has one) off the live boxes and
    leaves every other box as it was; a second [Clear], or the destructor,
    then changes nothing. *)
Theorem Clear_releases_own_box (h : Heap) (self : TVMRetValue) :
  slot_ok h self →
  ∃ h1 self1,
    RetValue.Clear h self = Ok (h1, self1) ∧
    type_code_ self1 = kNull ∧
    (live_boxes h1 + has_box self = live_boxes h)%nat ∧
    (∀ q o, deref h q = Some o →
            (has_box self = 1%nat → value_ self <> v_handle q) →
            deref h1 q = Some o) ∧
    RetValue.Clear h1 self1 = Ok (h1, self1) ∧
    RetValue.destroy h1 self1 = Ok h1.
Proof.
  intros Hok.
  destruct (Clear_counts h self Hok) as (h1 & HC & _ & Hlive & Hframe).
  exists h1, (set_type_code_ kNull self).
  repeat split; try assumption.
Qed.

Lemma Clear_releases_own_box_witness :
  ∃ h1 self1,
    RetValue.Clear [Some (ObjString "a"); Some (ObjModule (mkModule 3))]
      (mkPOD (v_handle 2) kModuleHandle) = Ok (h1, self1) ∧
    type_code_ self1 = kNull ∧
    (live_boxes h1 + 1 = 2)%nat.
Proof.
  destruct (Clear_releases_own_box
              [Some (ObjString "a"); Some (ObjModule (mkModule 3))]
              (mkPOD (v_handle 2) kModuleHandle))
    as (h1 & self1 & HC & Hn & Hlive & _).
  - exists 2, (ObjModule (mkModule 3)). repeat split. discriminate.
  - exists h1, self1. repeat split; assumption.
Defined.

Lemma POD_assign_in_order (h : Heap) (self : TVMRetValue)
    (c : TypeCode) (v : TVMValue) :
  slot_ok h self → box_class c = None →
  ∃ h1, (RetValue.SwitchToPOD h self c
           ≫= λ '(h, self), Ok (h, set_value_ v self))
        = Ok (h1, mkPOD v c) ∧
        (live_boxes h1 + has_box self = live_boxes h)%nat.
Proof.
  intros Hok Hc.
  destruct (SwitchToPOD_counts h self c Hok Hc) as (h1 & HS & Hlive).
  exists h1. rewrite HS. split; [reflexivity | assumption].
Qed.

Ltac pod_in_order h self c v Hok :=
  let h1 := fresh "h1" in let HS := fresh "HS" in
  destruct (POD_assign_in_order h self c v Hok eq_refl) as (h1 & HS & _);
  eexists _, _; split; [exact HS | now apply slot_ok_POD].

Ltac class_in_order h self c v Hok :=
  let h1 := fresh "h1" in let p := fresh "p" in
  let HS := fresh "HS" in let Hp := fresh "Hp" in let Hd := fresh "Hd" in
  destruct (SwitchToClass_counts h self c v Hok eq_refl)
    as (h1 & p & HS & Hp & Hd & _);
  eexists _, _; split; [exact HS | now apply (slot_ok_box h1 p c v)].

(** X10. Every assignment operator keeps a slot in order: on a slot whose
    box, if its type code calls for one, is live and of the right class,
    the assignment of an [int64_t], [int], [bool], [double], [nullptr],
    [void*], [TVMType], string, [PackedFunc] or [Module] succeeds and
    leaves such a slot again. *)
Theorem assignments_keep_slot_in_order (h : Heap) (self : TVMRetValue)
    (z : Z) (b : bool) (t : TVMType) (s : string)
    (f : PackedFunc) (m : Module) :
  slot_ok h self →
  succeeds_in_order (RetValue.assign_int64 h self z) ∧
  succeeds_in_order (RetValue.assign_int h self z) ∧
  succeeds_in_order (RetValue.assign_bool h self b) ∧
  succeeds_in_order (RetValue.assign_double h self z) ∧
  succeeds_in_order (RetValue.assign_nullptr h self) ∧
  succeeds_in_order (RetValue.assign_voidp h self z) ∧
  succeeds_in_order (RetValue.assign_TVMType h self t) ∧
  succeeds_in_order (RetValue.assign_string h self s) ∧
  succeeds_in_order (RetValue.assign_PackedFunc h self f) ∧
  succeeds_in_order (RetValue.assign_Module h self m).
Proof.
  intros Hok. unfold succeeds_in_order. repeat split.
  - pod_in_order h self kInt (v_int64 z) Hok.
  - pod_in_order h self kInt (v_int64 z) Hok.
  - pod_in_order h self kInt (v_int64 (if b then 1 else 0)) Hok.
  - pod_in_order h self kFloat (v_float64 z) Hok.
  - pod_in_order h self kNull (v_handle 0) Hok.
  - pod_in_order h self kHandle (v_handle z) Hok.
  - pod_in_order h self kTVMType (v_type t) Hok.
  - class_in_order h self kStr (ObjString s) Hok.
  - class_in_order h self kFuncHandle (ObjPackedFunc f) Hok.
  - class_in_order h self kModuleHandle (ObjModule m) Hok.
Qed.

Lemma assignments_keep_slot_in_order_witness :
  succeeds_in_order
    (RetValue.assign_Module [Some (ObjString "a")] (mkPOD (v_handle 1) kStr)
       (mkModule 3)).
Proof.
  apply (assignments_keep_slot_in_order
           [Some (ObjString "a")] (mkPOD (v_handle 1) kStr)
           0 false (mkTVMType kInt 32 1) "" (mkPackedFunc None) (mkModule 3)).
  exists 1, (ObjString "a"). repeat split. discriminate.
Defined.

Ltac class_reads_back h self c v Hok :=
  let h1 := fresh "h1" in let p := fresh "p" in
  let HS := fresh "HS" in let Hp := fresh "Hp" in let Hd := fresh "Hd" in
  destruct (SwitchToClass_counts h self c v Hok eq_refl)
    as (h1 & p & HS & Hp & Hd & _);
  eexists _, _; split; [exact HS |];
  unfold RetValue.to_string, RetValue.to_PackedFunc, RetValue.to_Module,
    deref_ptr, load;
  cbn; rewrite Hd; reflexivity.

(** X11. A complex value assigned to a slot in order is the value read
    back: a string by [operator std::string], a [PackedFunc] by
    [operator PackedFunc], a [Module] by [operator Module], whatever the
    slot held before. *)
Theorem complex_assign_reads_back (h : Heap) (self : TVMRetValue)
    (s : string) (f : PackedFunc) (m : Module) :
  slot_ok h self →
  reads_back (RetValue.assign_string h self s) RetValue.to_string s ∧
  reads_back (RetValue.assign_PackedFunc h self f) RetValue.to_PackedFunc f ∧
  reads_back (RetValue.assign_Module h self m) RetValue.to_Module m.
Proof.
  intros Hok. unfold reads_back. repeat split.
  - class_reads_back h self kStr (ObjString s) Hok.
  - class_reads_back h self kFuncHandle (ObjPackedFunc f) Hok.
  - class_reads_back h self kModuleHandle (ObjModule m) Hok.
Qed.

Lemma complex_assign_reads_back_witness :
  reads_back
    (RetValue.assign_string [Some (ObjModule (mkModule 3))]
       (mkPOD (v_handle 1) kModuleHandle) "x")
    RetValue.to_string "x".
Proof.
  apply (complex_assign_reads_back [Some (ObjModule (mkModule 3))]
           (mkPOD (v_handle 1) kModuleHandle) "x"
           (mkPackedFunc None) (mkModule 0)).
  exists 1, (ObjModule (mkModule 3)). repeat split. discriminate.
Defined.

Ltac pod_reads_back h self c v Hok :=
  let h1 := fresh "h1" in let HS := fresh "HS" in
  destruct (POD_assign_in_order h self c v Hok eq_refl) as (h1 & HS & _);
  eexists _, _; split; [exact HS | try reflexivity].

(** X12. A plain value assigned to a slot in order is the value read
    back, whatever the slot held before: an [int64_t] by
    [operator int64_t], a [bool] by [operator bool], a [double] by
    [operator double], a [void*] and [nullptr] by [operator void*], a
    [TVMType] by [operator TVMType], an [int] (within the range of [int])
    by [operator int]; and [value()] gives the stored union. *)
Theorem plain_assign_reads_back (h : Heap) (self : TVMRetValue)
    (z i : Z) (b : bool) (t : TVMType) :
  slot_ok h self → INT_MIN <= i <= INT_MAX →
  reads_back (RetValue.assign_int64 h self z)
    (λ _, TVMPODValue.to_int64) z ∧
  reads_back (RetValue.assign_int h self i) (λ _, TVMPODValue.to_int) i ∧
  reads_back (RetValue.assign_bool h self b) (λ _, TVMPODValue.to_bool) b ∧
  reads_back (RetValue.assign_double h self z)
    (λ _, TVMPODValue.to_double) z ∧
  reads_back (RetValue.assign_voidp h self z) (λ _, TVMPODValue.to_voidp) z ∧
  reads_back (RetValue.assign_nullptr h self) (λ _, TVMPODValue.to_voidp) 0 ∧
  reads_back (RetValue.assign_TVMType h self t) RetValue.to_TVMType t ∧
  reads_back (RetValue.assign_int64 h self z)
    (λ _, RetValue.value) (v_int64 z).
Proof.
  intros Hok Hi. unfold reads_back. repeat split.
  - pod_reads_back h self kInt (v_int64 z) Hok.
  - pod_reads_back h self kInt (v_int64 i) Hok. now apply to_int_in_range.
  - pod_reads_back h self kInt (v_int64 (if b then 1 else 0)) Hok.
    now destruct b.
  - pod_reads_back h self kFloat (v_float64 z) Hok.
  - pod_reads_back h self kHandle (v_handle z) Hok.
  - pod_reads_back h self kNull (v_handle 0) Hok.
  - pod_reads_back h self kTVMType (v_type t) Hok.
  - pod_reads_back h self kInt (v_int64 z) Hok.
Qed.

Lemma plain_assign_reads_back_witness :
  reads_back
    (RetValue.assign_int [Some (ObjString "a")] (mkPOD (v_handle 1) kStr) (-5))
    (λ _, TVMPODValue.to_int) (-5).
Proof.
  apply (plain_assign_reads_back [Some (ObjString "a")]
           (mkPOD (v_handle 1) kStr) 0 (-5) false (mkTVMType kInt 32 1)).
  - exists 1, (ObjString "a"). repeat split. discriminate.
  - unfold INT_MIN, INT_MAX. lia.
Defined.

Lemma deref_app_l (h l : Heap) (p : Z) (o : Object) :
  deref h p = Some o → deref (h ++ l)%list p = Some o.
Proof.
  intros H. pose proof (deref_lookup _ _ _ H) as Hl.
  destruct (deref_live_bound _ _ _ H) as [Hp _].
  unfold deref. destruct (Z.leb_spec p 0); [lia |].
  now rewrite (lookup_app_l_Some _ _ _ _ Hl).
Qed.

Lemma destroy_frame (h : Heap) (self : TVMRetValue) :
  slot_ok h self →
  ∃ h1, RetValue.destroy h self = Ok h1 ∧
        (live_boxes h1 + has_box self = live_boxes h)%nat ∧
        (∀ q o, deref h q = Some o →
                (has_box self = 1%nat → value_ self <> v_handle q) →
                deref h1 q = Some o).
Proof.
  intros Hok.
  destruct (Clear_counts h self Hok) as (h1 & HC & _ & Hlive & Hframe).
  exists h1. unfold RetValue.destroy. rewrite HC. now repeat split.
Qed.




(** X14. [value()] refuses exactly the type codes under which the slot has
    a box to release, and gives the stored union under every other one. *)
Theorem value_only_for_plain_data (self : TVMRetValue) :
  (has_box self = 1%nat →
     RetValue.value self
     = Fatal (CheckFailed "TVMRetValue.value can only be used for POD data")) ∧
  (has_box self = 0%nat → RetValue.value self = Ok (value_ self)).
Proof.
  destruct self as [val c].
  split; intros H; destruct c; cbn in H; try discriminate H; reflexivity.
Qed.

Lemma value_only_for_plain_data_witness :
  RetValue.value (mkPOD (v_handle 1) kNodeHandle)
    = Fatal (CheckFailed "TVMRetValue.value can only be used for POD data") ∧
  RetValue.value (mkPOD (v_handle 1) kArrayHandle) = Ok (v_handle 1).
Proof.
  split.
  - apply (value_only_for_plain_data (mkPOD (v_handle 1) kNodeHandle)).
    reflexivity.
  - apply (value_only_for_plain_data (mkPOD (v_handle 1) kArrayHandle)).
    reflexivity.
Defined.

(** X15. The copy constructor copies the box: from a slot in order that
    holds a string, a [PackedFunc] or a node pointer it makes a slot with
    the same type code whose box is new and has the same content; the
    source keeps its box, and destroying the source and then the copy
    succeeds and releases both. *)
Theorem copy_ctor_copies_box (h : Heap) (other : TVMRetValue) :
  slot_ok h other → has_box other = 1%nat →
  type_code_ other <> kModuleHandle →
  ∃ p o,
    value_ other = v_handle p ∧ deref h p = Some o ∧
    let p' := Z.of_nat (length h) + 1 in
    let copy := mkPOD (v_handle p') (type_code_ other) in
    RetValue.copy_ctor h other = Ok ((h ++ [Some o])%list, copy) ∧
    p' <> p ∧
    deref (h ++ [Some o])%list p = Some o ∧
    deref (h ++ [Some o])%list p' = Some o ∧
    ∃ h3, (RetValue.destroy (h ++ [Some o])%list other
             ≫= λ h2, RetValue.destroy h2 copy) = Ok h3 ∧
          (live_boxes h3 + 1 = live_boxes h)%nat.
Proof.
  intros Hok Hbox Hm. pose proof Hok as Hok0.
  unfold slot_ok, has_box in Hok, Hbox.
  destruct (box_class (type_code_ other)) as [T|] eqn:HT; [| discriminate].
  destruct Hok as (p & o & Hval & Hp & Hlive & Hclass).
  exists p, o. split; [assumption |]. split; [assumption |]. cbv zeta.
  destruct (deref_live_bound _ _ _ Hlive) as [Hp0 Hcell].
  assert (Hne : Z.of_nat (length h) + 1 <> p) by (unfold cell in Hcell; lia).
  assert (Hrun : RetValue.copy_ctor h other
                 = Ok ((h ++ [Some o])%list,
                       mkPOD (v_handle (Z.of_nat (length h) + 1))
                         (type_code_ other))).
  { destruct other as [val c]. cbn in *. subst val.
    unfold RetValue.copy_ctor, RetValue.Assign, RetValue.source_to_string,
      RetValue.source_to_PackedFunc, RetValue.to_string,
      RetValue.to_PackedFunc, deref_ptr, load.
    destruct c; cbn in HT; try discriminate HT; try congruence;
      injection HT as <-; cbn; rewrite Hlive; cbn;
      destruct o; cbn in Hclass; try discriminate Hclass; reflexivity. }
  split; [exact Hrun |]. split; [exact Hne |].
  split; [now apply deref_app_l |]. split; [apply deref_new |].
  destruct (destroy_frame (h ++ [Some o])%list other) as (h2 & HD & Hl2 & Hfr).
  { unfold slot_ok. rewrite HT. exists p, o.
    repeat split; try assumption. now apply deref_app_l. }
  assert (Hcopy : deref h2 (Z.of_nat (length h) + 1) = Some o).
  { apply Hfr; [apply deref_new |]. intros _. rewrite Hval. congruence. }
  destruct (destroy_counts h2
              (mkPOD (v_handle (Z.of_nat (length h) + 1)) (type_code_ other)))
    as (h3 & HD3 & Hl3).
  { unfold slot_ok. cbn. rewrite HT.
    exists (Z.of_nat (length h) + 1), o. repeat split; try assumption. lia. }
  exists h3. rewrite HD. split; [exact HD3 |].
  unfold has_box in Hl2, Hl3. cbn in Hl3. rewrite HT in Hl2, Hl3.
  rewrite live_boxes_app in Hl2. cbn in Hl2. lia.
Qed.

Lemma copy_ctor_copies_box_witness :
  ∃ p o,
    deref [Some (ObjString "a")] p = Some o ∧
    RetValue.copy_ctor [Some (ObjString "a")] (mkPOD (v_handle 1) kStr)
    = Ok ([Some (ObjString "a"); Some o], mkPOD (v_handle 2) kStr).
Proof.
  destruct (copy_ctor_copies_box [Some (ObjString "a")]
              (mkPOD (v_handle 1) kStr))
    as (p & o & _ & Hd & Hrun & _).
  - exists 1, (ObjString "a"). repeat split. discriminate.
  - reflexivity.
  - discriminate.
  - exists p, o. split; [exact Hd | exact Hrun].
Defined.



(** X17. Bytes become a string: assigning an argument view with type code
    [kBytes] to a slot in order gives a slot with type code [kStr] whose
    string is the bytes of the array, all of them.  A return slot as the
    source has no such conversion: copying from one with type code [kBytes]
    fails. *)
Theorem Assign_kBytes (h : Heap) (self : TVMRetValue) (p : Z)
    (data : string) (val : TVMValue) :
  slot_ok h self → deref h p = Some (ObjByteArray data) →
  (∃ h1 p1, RetValue.assign_ArgValue h self (mkPOD (v_handle p) kBytes)
            = Ok (h1, mkPOD (v_handle p1) kStr) ∧
            RetValue.to_string h1 (mkPOD (v_handle p1) kStr) = Ok data) ∧
  RetValue.copy_assign h self (mkPOD val kBytes)
  = Fatal (CheckFailed " expected str but get bytes").
Proof.
  intros Hok Hlive. split; [| reflexivity].
  destruct (SwitchToClass_counts h self kStr (ObjString data) Hok eq_refl)
    as (h1 & p1 & HS & Hp & Hd & _).
  exists h1, p1. split.
  - unfold RetValue.assign_ArgValue, RetValue.Assign. cbn.
    unfold ArgValue.to_string, deref_ptr, load. cbn. rewrite Hlive. cbn.
    exact HS.
  - unfold RetValue.to_string, deref_ptr, load. cbn. now rewrite Hd.
Qed.

Lemma Assign_kBytes_witness :
  ∃ h1 p1,
    RetValue.assign_ArgValue [Some (ObjByteArray "ab")] RetValue.default
      (mkPOD (v_handle 1) kBytes) = Ok (h1, mkPOD (v_handle p1) kStr) ∧
    RetValue.to_string h1 (mkPOD (v_handle p1) kStr) = Ok "ab".
Proof.
  destruct (Assign_kBytes [Some (ObjByteArray "ab")] RetValue.default 1 "ab"
              v_uninit) as [H _].
  - exact I.
  - reflexivity.
  - exact H.
Defined.



(* ===================================================================== *)
(** ** Packing arguments and reading them back *)
(* ===================================================================== *)


Lemma set_cell_spec (self : TVMArgsSetter) (m : Memory) (i : Z)
    (v : TVMValue) (c : TypeCode) :
  cell_there m self i →
  Setter.set_cell self m i v c
  = Ok (mkMemory (<[values_ self + i := v]> (value_cells m))
                 (<[type_codes_ self + i := c]> (code_cells m))).
Proof.
  intros [[v0 Hv] [c0 Hc]]. unfold Setter.set_cell, store_value, store_code.
  rewrite Hv. unfold mbind, outcome_bind. cbn. now rewrite Hc.
Qed.

Lemma set_cell_missing (self : TVMArgsSetter) (m : Memory) (i : Z)
    (v : TVMValue) (c : TypeCode) :
  value_cells m !! (values_ self + i) = None →
  Setter.set_cell self m i v c = Undefined (BadPointer (values_ self + i)).
Proof.
  intros Hv. unfold Setter.set_cell, store_value. now rewrite Hv.
Qed.

Lemma apply_spec (self : TVMArgsSetter) (m : Memory) (i : nat) (a : PackArg) :
  cell_there m self (Z.of_nat i) → packable a →
  Setter.apply self i a m
  = Ok (mkMemory
          (<[values_ self + Z.of_nat i := value_ (packed_as a)]>
             (value_cells m))
          (<[type_codes_ self + Z.of_nat i := type_code_ (packed_as a)]>
             (code_cells m))).
Proof.
  intros Hc Hp. pose proof Hc as [[v0 Hv] [c0 Hcd]].
  destruct a; cbn [Setter.apply packed_as value_ type_code_];
    try (apply set_cell_spec; assumption).
  unfold Setter.set_uint64, store_value, store_code.
  unfold packable in Hp.
  rewrite Hv. unfold mbind, outcome_bind. cbn [value_cells code_cells].
  destruct (Z.leb_spec value INT64_MAX) as [_ | Hbig];
    [| clear - Hbig Hp; lia].
  now rewrite Hcd.
Qed.







Lemma view_at_frame (m m' : Memory) (args : TVMArgs) (j : Z) :
  value_cells m' !! (values args + j) = value_cells m !! (values args + j) →
  code_cells m' !! (type_codes args + j) = code_cells m !! (type_codes args + j) →
  Args.view_at m' args j = Args.view_at m args j.
Proof.
  intros Hv Hc. unfold Args.view_at, load_value, load_code.
  now rewrite Hv, Hc.
Qed.

Lemma apply_missing (self : TVMArgsSetter) (m : Memory) (i : nat)
    (a : PackArg) :
  value_cells m !! (values_ self + Z.of_nat i) = None →
  Setter.apply self i a m
  = Undefined (BadPointer (values_ self + Z.of_nat i)).
Proof.
  intros Hv. destruct a; cbn [Setter.apply];
    try (apply set_cell_missing; assumption).
  unfold Setter.set_uint64, store_value. now rewrite Hv.
Qed.

(** X21. A setter call touches one cell of each array: with the cell at
    index [i] there and an argument it accepts, it succeeds, and every
    view over the memory at another place of the value array and of the
    code array is what it was before; where the value array has no cell at
    [i], the call has no defined result. *)
Theorem setter_writes_one_cell
    (self : TVMArgsSetter) (m : Memory) (i : nat) (a : PackArg) :
  (cell_there m self (Z.of_nat i) → packable a →
     ∃ m', Setter.apply self i a m = Ok m' ∧
           (∀ args j,
              values args + j <> values_ self + Z.of_nat i →
              type_codes args + j <> type_codes_ self + Z.of_nat i →
              Args.view_at m' args j = Args.view_at m args j) ∧
           (∀ j, cell_there m self j → cell_there m' self j)) ∧
  (value_cells m !! (values_ self + Z.of_nat i) = None →
     Setter.apply self i a m
     = Undefined (BadPointer (values_ self + Z.of_nat i))).
Proof.
  split; [| apply apply_missing].
  intros Hc Hp. eexists. split; [now apply apply_spec |]. split.
  - intros args j Hv Hcd. apply view_at_frame; cbn;
      now rewrite lookup_insert_ne.
  - intros j [Hjv Hjc]. split; cbn; rewrite lookup_insert_is_Some;
      destruct (decide (values_ self + Z.of_nat i = values_ self + j));
      destruct (decide (type_codes_ self + Z.of_nat i = type_codes_ self + j));
      auto.
Qed.

Lemma setter_writes_one_cell_witness :
  ∃ m', Setter.apply (mkSetter 100 200) 0 (PVoidp 64) two_args_memory = Ok m' ∧
        Args.view_at m' (mkTVMArgs 100 200 2) 1
        = Args.view_at two_args_memory (mkTVMArgs 100 200 2) 1.
Proof.
  destruct (setter_writes_one_cell (mkSetter 100 200) two_args_memory 0
              (PVoidp 64)) as [H _].
  destruct H as (m' & Hrun & Hframe & _).
  - split; cbn; eexists; reflexivity.
  - exact I.
  - exists m'. split; [exact Hrun |]. apply Hframe; cbn; lia.
Defined.

Lemma for_each_from_spec (self : TVMArgsSetter) (args : list PackArg) :
  ∀ (I : nat) (m : Memory),
    (∀ k, (k < length args)%nat → cell_there m self (Z.of_nat (I + k))) →
    Forall packable args →
    ∃ m', for_each_from I args (Setter.apply self) m = Ok m' ∧
          (∀ k a, args !! k = Some a →
             value_cells m' !! (values_ self + Z.of_nat (I + k))
               = Some (value_ (packed_as a)) ∧
             code_cells m' !! (type_codes_ self + Z.of_nat (I + k))
               = Some (type_code_ (packed_as a))) ∧
          (∀ j, j < Z.of_nat I →
             value_cells m' !! (values_ self + j)
               = value_cells m !! (values_ self + j) ∧
             code_cells m' !! (type_codes_ self + j)
               = code_cells m !! (type_codes_ self + j)).
Proof.
  induction args as [|a rest IH]; intros I m Hcells Hpack.
  - exists m. split; [reflexivity |]. split; [| auto].
    intros k a Hk. now rewrite lookup_nil in Hk.
  - apply Forall_cons in Hpack as [Hpa Hprest].
    assert (Hc0 : cell_there m self (Z.of_nat I)).
    { specialize (Hcells 0%nat). rewrite Nat.add_0_r in Hcells.
      apply Hcells. cbn. lia. }
    pose proof (apply_spec self m I a Hc0 Hpa) as Happly.
    set (m1 := mkMemory _ _) in Happly.
    destruct (IH (S I) m1) as (m' & Hrun & Hset & Hkeep).
    { intros k Hk. specialize (Hcells (S k)).
      replace (I + S k)%nat with (S I + k)%nat in Hcells by lia.
      destruct Hcells as [Hv Hc]; [cbn; lia |].
      split; unfold m1; cbn; rewrite lookup_insert_is_Some.
      - destruct (decide (values_ self + Z.of_nat I
                          = values_ self + Z.of_nat (S I + k))); auto.
      - destruct (decide (type_codes_ self + Z.of_nat I
                          = type_codes_ self + Z.of_nat (S I + k))); auto. }
    { assumption. }
    exists m'. split.
    { cbn [for_each_from]. rewrite Happly. exact Hrun. }
    split.
    + intros k b Hk. destruct k as [|k].
      * cbn in Hk. injection Hk as <-. rewrite Nat.add_0_r.
        destruct (Hkeep (Z.of_nat I)) as [Hv Hc]; [lia |].
        rewrite Hv, Hc. unfold m1. cbn.
        now rewrite !lookup_insert_eq.
      * cbn in Hk. replace (I + S k)%nat with (S I + k)%nat by lia.
        now apply Hset.
    + intros j Hj. destruct (Hkeep j) as [Hv Hc]; [lia |].
      rewrite Hv, Hc. unfold m1. cbn.
      rewrite !lookup_insert_ne by lia. now split.
Qed.

Lemma for_each_from_fatal (self : TVMArgsSetter) (args : list PackArg) :
  ∀ (I : nat) (m : Memory),
    (∀ k, (k < length args)%nat → cell_there m self (Z.of_nat (I + k))) →
    Exists (λ a, ¬ packable a) args →
    is_fatal (for_each_from I args (Setter.apply self) m).
Proof.
  induction args as [|a rest IH]; intros I m Hcells Hex.
  - now apply Exists_nil in Hex.
  - assert (Hc0 : cell_there m self (Z.of_nat I)).
    { specialize (Hcells 0%nat). rewrite Nat.add_0_r in Hcells.
      apply Hcells. cbn. lia. }
    cbn [for_each_from].
    assert (Hdec : packable a ∨ ¬ packable a).
    { destruct a; cbn; auto. lia. }
    destruct Hdec as [Hpa | Hna].
    + apply Exists_cons in Hex as [Hex | Hex]; [contradiction |].
      rewrite (apply_spec self m I a Hc0 Hpa).
      apply IH; [| assumption].
      intros k Hk. specialize (Hcells (S k)).
      replace (I + S k)%nat with (S I + k)%nat in Hcells by lia.
      destruct Hcells as [Hv Hc]; [cbn; lia |].
      split; cbn; rewrite lookup_insert_is_Some.
      * destruct (decide (values_ self + Z.of_nat I
                          = values_ self + Z.of_nat (S I + k))); auto.
      * destruct (decide (type_codes_ self + Z.of_nat I
                          = type_codes_ self + Z.of_nat (S I + k))); auto.
    + destruct a; cbn in Hna; try tauto.
      destruct Hc0 as [[v0 Hv] _].
      cbn [Setter.apply]. unfold Setter.set_uint64, store_value.
      rewrite Hv. unfold mbind, outcome_bind. cbn.
      destruct (Z.leb_spec value INT64_MAX); [lia | exact Logic.I].
Qed.

(** X22. Packing then indexing: with room for them in the two arrays, a
    list of arguments the setter accepts is packed without failure into an
    argument list whose size is the number of arguments and whose view at
    each index is the tagged value of the argument at that place, the
    later arguments having left the earlier ones alone.  If one of the
    arguments is a [uint64_t] above [INT64_MAX], packing fails. *)
Theorem pack_then_index
    (m : Memory) (values type_codes : Z) (args : list PackArg) :
  cells_at (value_cells m) values (length args) →
  cells_at (code_cells m) type_codes (length args) →
  (Forall packable args →
     ∃ m' packed,
       pack m values type_codes args = Ok (m', packed) ∧
       Args.size packed = Z.of_nat (length args) ∧
       ∀ (i : nat) a, args !! i = Some a →
                      Args.at_ m' packed (Z.of_nat i) = Ok (packed_as a)) ∧
  (Exists (λ a, ¬ packable a) args →
     is_fatal (pack m values type_codes args)).
Proof.
  intros Hv Hc.
  assert (Hcells : ∀ k, (k < length args)%nat →
            cell_there m (mkSetter values type_codes) (Z.of_nat (0 + k))).
  { intros k Hk. split; cbn; [now apply Hv | now apply Hc]. }
  split.
  - intros Hpack.
    destruct (for_each_from_spec (mkSetter values type_codes) args 0 m
                Hcells Hpack) as (m' & Hrun & Hset & _).
    exists m', (mkTVMArgs values type_codes (Z.of_nat (length args))).
    split; [unfold pack, for_each; now rewrite Hrun |].
    split; [reflexivity |].
    intros i a Hi. pose proof (lookup_lt_Some _ _ _ Hi) as Hlt.
    destruct (Hset i a Hi) as [Hvi Hci]. cbn in Hvi, Hci.
    unfold Args.at_, Args.view_at, load_value, load_code. cbn.
    destruct (Z.ltb_spec (Z.of_nat i) (Z.of_nat (length args))); [| lia].
    rewrite Hvi, Hci. cbn. now destruct (packed_as a).
  - intros Hex.
    pose proof (for_each_from_fatal (mkSetter values type_codes) args 0 m
                  Hcells Hex) as Hf.
    unfold pack, for_each.
    destruct (for_each_from 0 args _ m); [destruct Hf | exact I | destruct Hf].
Qed.

Lemma pack_then_index_witness :
  ∃ m' packed,
    pack two_args_memory 100 200 [PIntegral 1; PDouble 2] = Ok (m', packed) ∧
    Args.at_ m' packed 1 = Ok (mkPOD (v_float64 2) kFloat).
Proof.
  destruct (pack_then_index two_args_memory 100 200 [PIntegral 1; PDouble 2])
    as [H _].
  - intros k Hk. destruct k as [|[|k]]; cbn in *; try lia; eexists; reflexivity.
  - intros k Hk. destruct k as [|[|k]]; cbn in *; try lia; eexists; reflexivity.
  - destruct H as (m' & packed & Hrun & _ & Hat).
    + repeat constructor.
    + exists m', packed. split; [exact Hrun |].
      apply (Hat 1%nat (PDouble 2)). reflexivity.
Defined.

(* ===================================================================== *)
(** ** Descriptors and transfers through a return slot *)
(* ===================================================================== *)

(** X23. A return slot converts between a descriptor and its text in both
    directions: after a [TVMType] is assigned, [operator std::string] gives
    the formatted text (or fails as the formatter does); and after the text
    of a [kInt] or [kFloat] descriptor is assigned as a string,
    [operator TVMType] gives that descriptor. *)
Theorem RetValue_type_text (h : Heap) (self : TVMRetValue)
    (d : TVMType) (s : string) :
  slot_ok h self →
  (∃ h1 self1, RetValue.assign_TVMType h self d = Ok (h1, self1) ∧
               RetValue.to_string h1 self1 = TVMType2String d) ∧
  (code d = kInt ∨ code d = kFloat →
   0 <= bits d < 256 → 0 <= lanes d < 65536 →
   TVMType2String d = Ok s →
   reads_back (RetValue.assign_string h self s) RetValue.to_TVMType d).
Proof.
  intros Hok. split.
  - destruct (POD_assign_in_order h self kTVMType (v_type d) Hok eq_refl)
      as (h1 & HS & _).
    eexists _, _. split; [exact HS | reflexivity].
  - intros Hc Hb Hl Hfmt.
    pose proof (Parse_Format_Int_Float (code d) (bits d) (lanes d) Hc Hb Hl)
      as Hrt.
    destruct d as [c b l]; cbn [code bits lanes] in *.
    unfold Parse_Format in Hrt. rewrite Hfmt in Hrt.
    destruct (SwitchToClass_counts h self kStr (ObjString s) Hok eq_refl)
      as (h1 & p & HS & Hp & Hd & _).
    eexists _, _. split; [exact HS |].
    unfold RetValue.to_TVMType, RetValue.to_string, deref_ptr, load.
    cbn. rewrite Hd. cbn. exact Hrt.
Qed.

Lemma RetValue_type_text_witness :
  reads_back
    (RetValue.assign_string [] RetValue.default "int8x4")
    RetValue.to_TVMType (mkTVMType kInt 8 4).
Proof.
  destruct (RetValue_type_text [] RetValue.default (mkTVMType kInt 8 4)
              "int8x4" Logic.I) as [_ H].
  apply H; cbn; [left; reflexivity | lia | lia | reflexivity].
Defined.

(** X24. What [MoveToCHost] hands over stays alive.  After a [PackedFunc]
    or a [Module] is assigned to a slot in order, [MoveToCHost] writes out
    the pointer to the box and the type code, and the destructor of the
    slot then leaves the heap, and so the box, as it is.  After a string is
    assigned, [MoveToCHost] fails. *)
Theorem MoveToCHost_after_assign (h : Heap) (self : TVMRetValue)
    (f : PackedFunc) (md : Module) (s : string) :
  slot_ok h self →
  (∃ h1 self1 p,
     RetValue.assign_PackedFunc h self f = Ok (h1, self1) ∧
     RetValue.MoveToCHost self1
       = Ok (set_type_code_ kNull self1, v_handle p, kFuncHandle) ∧
     RetValue.destroy h1 (set_type_code_ kNull self1) = Ok h1 ∧
     deref h1 p = Some (ObjPackedFunc f)) ∧
  (∃ h1 self1 p,
     RetValue.assign_Module h self md = Ok (h1, self1) ∧
     RetValue.MoveToCHost self1
       = Ok (set_type_code_ kNull self1, v_handle p, kModuleHandle) ∧
     RetValue.destroy h1 (set_type_code_ kNull self1) = Ok h1 ∧
     deref h1 p = Some (ObjModule md)) ∧
  (∃ h1 self1,
     RetValue.assign_string h self s = Ok (h1, self1) ∧
     RetValue.MoveToCHost self1 = Fatal (CheckFailed "")).
Proof.
  intros Hok. split; [| split].
  - destruct (SwitchToClass_counts h self kFuncHandle (ObjPackedFunc f)
                Hok eq_refl) as (h1 & p & HS & Hp & Hd & _).
    eexists _, _, p. split; [exact HS |]. now repeat split.
  - destruct (SwitchToClass_counts h self kModuleHandle (ObjModule md)
                Hok eq_refl) as (h1 & p & HS & Hp & Hd & _).
    eexists _, _, p. split; [exact HS |]. now repeat split.
  - destruct (SwitchToClass_counts h self kStr (ObjString s)
                Hok eq_refl) as (h1 & p & HS & Hp & Hd & _).
    eexists _, _. split; [exact HS | reflexivity].
Qed.

Lemma MoveToCHost_after_assign_witness :
  ∃ h1 self1,
    RetValue.assign_string [] RetValue.default "x" = Ok (h1, self1) ∧
    RetValue.MoveToCHost self1 = Fatal (CheckFailed "").
Proof.
  destruct (MoveToCHost_after_assign [] RetValue.default
              (mkPackedFunc None) (mkModule 0) "x" Logic.I) as (_ & _ & H).
  exact H.
Defined.

(** X25. The object conversions accept their own type codes only, on a
    view as on a return slot: to [PackedFunc] only [kFuncHandle], to
    [Module] only [kModuleHandle]; to a string only [kStr] and [kTVMType]
    (and [kBytes] on a view); to [TVMType] only [kTVMType] and [kStr].
    Under any other type code the conversion fails, whatever the heap. *)
Theorem object_conversions_check_tag (h : Heap) (self : TVMPODValue_) :
  (type_code_ self <> kFuncHandle →
     is_fatal (ArgValue.to_PackedFunc h self) ∧
     is_fatal (RetValue.to_PackedFunc h self)) ∧
  (type_code_ self <> kModuleHandle →
     is_fatal (ArgValue.to_Module h self) ∧
     is_fatal (RetValue.to_Module h self)) ∧
  (type_code_ self <> kStr → type_code_ self <> kTVMType →
     is_fatal (RetValue.to_string h self) ∧
     is_fatal (ArgValue.to_TVMType h self) ∧
     is_fatal (RetValue.to_TVMType h self) ∧
     (type_code_ self <> kBytes → is_fatal (ArgValue.to_string h self))).
Proof.
  split; [| split].
  - intros H. split; now apply check_then_fatal.
  - intros H. split; now apply check_then_fatal.
  - intros Hs Ht.
    unfold RetValue.to_string, ArgValue.to_TVMType, RetValue.to_TVMType,
      ArgValue.to_string, ArgValue.to_TVMType_stored,
      RetValue.to_TVMType_stored.
    destruct (decide (type_code_ self = kTVMType)); [contradiction |].
    destruct (decide (type_code_ self = kStr)); [contradiction |].
    repeat split; try (now apply check_then_fatal).
    intros Hb.
    destruct (decide (type_code_ self = kBytes)); [contradiction |].
    now apply check_then_fatal.
Qed.

Lemma object_conversions_check_tag_witness :
  is_fatal (RetValue.to_PackedFunc [] (mkPOD (v_int64 1) kInt)) ∧
  is_fatal (ArgValue.to_string [] (mkPOD (v_int64 1) kInt)).
Proof.
  destruct (object_conversions_check_tag [] (mkPOD (v_int64 1) kInt))
    as (Hf & _ & Hs).
  split.
  - apply Hf. discriminate.
  - apply Hs; discriminate.
Defined.
